(** * A shallow embedding of the retrieval pipeline of [rag_pipeline.py]

    The development follows the source file top-down: Python strings and
    the builtins the pipeline calls on them, the text normalizer, the
    sentence splitter, the passage segmenter, the TF-IDF index and the
    retriever, and the answer extractor.  Theorems come after all the
    definitions. *)

From Stdlib Require Import Ascii String DecimalString DecimalNat.
From Stdlib Require Import List ZArith NArith QArith Lia Lqa Bool
  Permutation Sorted.
Import ListNotations.

(** ** Python strings

    A Python [str] is modelled as the list of its characters, a character
    being a code point below 256 (Latin-1), which is what Rocq's [ascii]
    holds.  On that range [str.lower], [str.isspace], [\s], [\d] and
    [string.punctuation] are the tables below. *)

Module Py.

Definition str := list ascii.

(** A string literal of the source. *)
Definition lit (s : string) : str := list_ascii_of_string s.

Definition code (c : ascii) : N := N_of_ascii c.

Definition between (lo hi : N) (c : ascii) : bool :=
  ((lo <=? code c) && (code c <=? hi))%N.

(** [str.isspace] on one character, also what [\s] matches and what
    [str.split()] and [str.strip()] treat as separators: TAB..CR,
    FS..US, SPACE, NEL and NBSP. *)
Definition isspace (c : ascii) : bool :=
  between 9 13 c || between 28 32 c || (code c =? 133)%N || (code c =? 160)%N.

(** Membership in [string.punctuation], the 32 printable ASCII
    characters that are neither letters, digits nor the space:
    codes 33..47, 58..64, 91..96 and 123..126. *)
Definition in_punctuation (c : ascii) : bool :=
  between 33 47 c || between 58 64 c || between 91 96 c || between 123 126 c.

(** What [\d] matches: the decimal digits. *)
Definition isdigit (c : ascii) : bool := between 48 57 c.

(** [str.lower] on one character: A..Z and the Latin-1 capitals
    (all of U+00C0..U+00DE but the multiplication sign U+00D7). *)
Definition lower_char (c : ascii) : ascii :=
  if between 65 90 c || (between 192 222 c && negb (code c =? 215)%N)
  then ascii_of_N (code c + 32)
  else c.

Definition lower (s : str) : str := map lower_char s.

(** [s.translate(table)] with a table that only deletes: the characters
    of a set are removed. *)
Definition delete_chars (chars : ascii -> bool) (s : str) : str :=
  filter (fun c => negb (chars c)) s.

Definition cons_head (c : ascii) (ws : list str) : list str :=
  match ws with
  | [] => [[c]]
  | w :: ws' => (c :: w) :: ws'
  end.

(** [s.split()]: the maximal runs of non-whitespace characters. *)
Fixpoint split (s : str) : list str :=
  match s with
  | [] => []
  | c :: s' =>
      if isspace c then split s'
      else match s' with
           | [] => [[c]]
           | d :: _ => if isspace d then [c] :: split s'
                       else cons_head c (split s')
           end
  end.

(** [sep.join(l)]. *)
Fixpoint join (sep : str) (l : list str) : str :=
  match l with
  | [] => []
  | x :: rest =>
      match rest with
      | [] => x
      | _ :: _ => x ++ sep ++ join sep rest
      end
  end.

Fixpoint lstrip (chars : ascii -> bool) (s : str) : str :=
  match s with
  | [] => []
  | c :: s' => if chars c then lstrip chars s' else s
  end.

Definition rstrip (chars : ascii -> bool) (s : str) : str :=
  rev (lstrip chars (rev s)).

(** [s.strip()] is [strip_chars isspace s]; [s.strip(string.punctuation)]
    is [strip_chars in_punctuation s]. *)
Definition strip_chars (chars : ascii -> bool) (s : str) : str :=
  rstrip chars (lstrip chars s).

Definition strip (s : str) : str := strip_chars isspace s.

(** [s[-1]] of a string known to be non-empty; [None] stands for the
    [IndexError] on the empty string. *)
Definition last_char (s : str) : option ascii :=
  match rev s with
  | [] => None
  | c :: _ => Some c
  end.

Definition str_eqb (a b : str) : bool :=
  if list_eq_dec ascii_dec a b then true else false.

(** [a.startswith(b)]. *)
Fixpoint startswith (a b : str) : bool :=
  match b, a with
  | [], _ => true
  | _ :: _, [] => false
  | y :: b', x :: a' => Ascii.eqb x y && startswith a' b'
  end.

(** [sub in s] on strings: [sub] occurs as a contiguous substring. *)
Fixpoint contains (s sub : str) : bool :=
  startswith s sub ||
  match s with
  | [] => false
  | _ :: s' => contains s' sub
  end.

(** [len(s.split())]. *)
Definition word_count (s : str) : Z := Z.of_nat (length (split s)).

End Py.

Import Py.

Definition space : str := lit " ".

Local Open Scope Z_scope.

(** ** Documents and passages *)

Record Document := mkDocument {
  doc_filename : str;
  doc_content : str
}.

Record Passage := mkPassage {
  text : str;
  source : str;
  passage_id : str
}.

(** ** Text normalizer: [RAGSystem.preprocess_text] *)

Definition preprocess_text (text : str) : str :=
  let text := lower text in
  let text := delete_chars in_punctuation text in
  join space (split text).

(** ** Sentence splitter: [RAGSystem.split_into_sentences] *)

(** The characters of the class [[.!?]]. *)
Definition is_terminator (c : ascii) : bool :=
  Ascii.eqb c "."%char || Ascii.eqb c "!"%char || Ascii.eqb c "?"%char.

(** [s[-1] in '.!?'] for a non-empty [s] (false on the empty string,
    where the source never evaluates it). *)
Definition ends_with_terminator (s : str) : bool :=
  match last_char s with
  | Some c => is_terminator c
  | None => false
  end.

(** Where the scan of [re.split] stands: inside a fragment, the previous
    character being a terminator or not, or inside a separator, a run of
    whitespace that started right after a terminator. *)
Inductive scan := InText (after_terminator : bool) | InSeparator.

(** [re.split(r'(?<=[.!?])\s+', text)] as a left-to-right scan: a
    separator is a maximal run of whitespace whose first character
    follows a terminator; [cur] holds the current fragment, reversed.  A
    separator at the very end of the text leaves an empty last fragment,
    as [re.split] does. *)
Fixpoint re_split_scan (st : scan) (cur : str) (s : str) : list str :=
  match s with
  | [] => [rev cur]
  | c :: s' =>
      if isspace c then
        match st with
        | InSeparator => re_split_scan InSeparator [] s'
        | InText true => rev cur :: re_split_scan InSeparator [] s'
        | InText false => re_split_scan (InText false) (c :: cur) s'
        end
      else re_split_scan (InText (is_terminator c)) (c :: cur) s'
  end.

Definition re_split_sentences (text : str) : list str :=
  re_split_scan (InText false) [] text.

(** One turn of the loop [for s in sentences] of the splitter, on the
    list [cleaned_sentences]. *)
Definition clean_sentence (cleaned_sentences : list str) (s : str) : list str :=
  let s := strip s in
  if negb (str_eqb s []) &&
     (ends_with_terminator s || (5 <? word_count s))
  then
    let s := if negb (ends_with_terminator s) then s ++ lit "." else s in
    cleaned_sentences ++ [s]
  else cleaned_sentences.

Definition split_into_sentences (text : str) : list str :=
  fold_left clean_sentence (re_split_sentences text) [].

(** ** Passage segmenter: [RAGSystem.create_passages] *)

(** The three variables the loop of [create_passages] updates. *)
Record segmenter := mkSegmenter {
  seg_passages : list str;
  current_passage : list str;
  current_word_count : Z
}.

Definition segmenter_init : segmenter := mkSegmenter [] [] 0.

(** A Python list is true when it is not empty. *)
Definition truthy {A} (l : list A) : bool :=
  match l with [] => false | _ :: _ => true end.

(** One turn of the loop [for sentence in sentences]. *)
Definition add_sentence (max_words_per_passage : Z) (st : segmenter)
    (sentence : str) : segmenter :=
  let word_count := word_count sentence in
  if (max_words_per_passage <? current_word_count st + word_count)
     && truthy (current_passage st)
  then mkSegmenter (seg_passages st ++ [join space (current_passage st)])
                   [sentence] word_count
  else mkSegmenter (seg_passages st)
                   (current_passage st ++ [sentence])
                   (current_word_count st + word_count).

(** The flush after the loop: [if current_passage: passages.append(...)]. *)
Definition flush (st : segmenter) : list str :=
  if truthy (current_passage st)
  then seg_passages st ++ [join space (current_passage st)]
  else seg_passages st.

Definition segment (max_words_per_passage : Z) (sentences : list str) : list str :=
  flush (fold_left (add_sentence max_words_per_passage) sentences segmenter_init).

(** [filename] is not used by the source function either. *)
Definition create_passages (max_words_per_passage : Z) (text filename : str)
    : list str :=
  segment max_words_per_passage (split_into_sentences text).

(** ** Exceptions

    A call either returns or raises; the exceptions are the ones the
    pipeline can meet. *)

Inductive exn := NotFittedError | ValueError | IndexError | TypeError.

Inductive result (A : Type) :=
| Ok (a : A)
| Raise (e : exn).
Arguments Ok {A} a.
Arguments Raise {A} e.

Definition bind {A B} (r : result A) (k : A -> result B) : result B :=
  match r with
  | Ok a => k a
  | Raise e => Raise e
  end.

Notation "x <- r ;; k" := (bind r (fun x => k))
  (at level 61, r at next level, right associativity).

(** ** Lexical index

    scikit-learn is not part of the repository.  The pipeline uses three
    of its operations, taken here as an interface: fitting a
    [TfidfVectorizer] on a corpus (which raises [ValueError] on an empty
    vocabulary), projecting one text on the fitted vocabulary, and the
    cosine similarity of two vectors.  [fit_transform] is, as its
    documentation says, [fit] followed by [transform] on each text.
    Similarities are rationals: the pipeline only compares them with
    each other and with the confidence floor. *)

Class Sklearn := {
  Vocabulary : Type;
  Vector : Type;
  fit : list str -> option Vocabulary;
  transform : Vocabulary -> str -> Vector;
  cosine_similarity : Vector -> Vector -> Q
}.

Definition fit_transform `{Sklearn} (texts : list str)
    : option (Vocabulary * list Vector) :=
  match fit texts with
  | Some v => Some (v, map (transform v) texts)
  | None => None
  end.

(** The fields of a [RAGSystem] ([docs_dir] is the directory the
    documents are read from; the listing is an argument of
    [ingest_documents] here).  [vectorizer] is [None] until it is fitted,
    [passage_vectors] is Python's [None] until the index is built. *)
Record RAGSystem `{Sklearn} := mkRAGSystem {
  max_words_per_passage : Z;
  documents : list Document;
  passages : list Passage;
  vectorizer : option Vocabulary;
  passage_vectors : option (list Vector)
}.
Arguments mkRAGSystem {_} _ _ _ _ _.

(** [RAGSystem(max_words_per_passage=m)]. *)
Definition new_system `{Sklearn} (m : Z) : RAGSystem :=
  mkRAGSystem m [] [] None None.

(** [str(i)] of a natural number. *)
Definition str_of_nat (i : nat) : str :=
  lit (NilEmpty.string_of_uint (Nat.to_uint i)).

(** [enumerate(l)]. *)
Definition enumerate {A} (l : list A) : list (nat * A) :=
  combine (seq 0 (length l)) l.

(** The body of the loop [for filename in txt_files], [content] being
    what was read from the file. *)
Definition ingest_file `{Sklearn} (sys : RAGSystem) (file : str * str)
    : RAGSystem :=
  let (filename, content) := file in
  let new_passages :=
    map (fun ip : nat * str =>
           mkPassage (snd ip) filename
             (filename ++ lit "_passage_" ++ str_of_nat (fst ip)))
        (enumerate (create_passages (max_words_per_passage sys) content filename)) in
  mkRAGSystem (max_words_per_passage sys)
              (documents sys ++ [mkDocument filename content])
              (passages sys ++ new_passages)
              (vectorizer sys) (passage_vectors sys).

(** [RAGSystem.ingest_documents], on the [.txt] files of the directory
    (none when the directory is missing or holds none). *)
Definition ingest_documents `{Sklearn} (txt_files : list (str * str))
    (sys : RAGSystem) : RAGSystem :=
  fold_left ingest_file txt_files sys.

(** [RAGSystem.index_passages]: with no passage it returns at once and
    leaves the vectorizer as it was. *)
Definition index_passages `{Sklearn} (sys : RAGSystem) : result RAGSystem :=
  if negb (truthy (passages sys)) then Ok sys
  else
    let preprocessed_passages :=
      map (fun p => preprocess_text (text p)) (passages sys) in
    match fit_transform preprocessed_passages with
    | None => Raise ValueError
    | Some (v, vectors) =>
        Ok (mkRAGSystem (max_words_per_passage sys) (documents sys)
              (passages sys) (Some v) (Some vectors))
    end.

(** ** Retriever: [RAGSystem.retrieve] *)

Definition Qlt_bool (a b : Q) : bool := negb (Qle_bool b a).

(** [similarities[i]]. *)
Definition sim_at (similarities : list Q) (i : nat) : Q :=
  nth i similarities 0%Q.

(** numpy is not part of the repository either.  [np.argsort] returns
    the indices that put the array in ascending order; with the default
    [kind] it promises no order among equal elements, and none is
    assumed here: an [argsort] is any function that returns, for every
    array, a permutation of its indices along which the array does not
    decrease. *)
Class Numpy := {
  argsort : list Q -> list nat;
  argsort_permutation :
    forall a, Permutation (argsort a) (seq 0 (length a));
  argsort_ascending :
    forall a, StronglySorted (fun i j => (sim_at a i <= sim_at a j)%Q)
                             (argsort a)
}.

(** The slice [l[start:]] of Python: a negative [start] counts from the
    end, and both are clipped to the list. *)
Definition slice_from {A} (start : Z) (l : list A) : list A :=
  let n := Z.of_nat (length l) in
  let lo := if start <? 0 then Z.max (start + n) 0 else Z.min start n in
  skipn (Z.to_nat lo) l.

(** [np.argsort(similarities)[-k:][::-1]]. *)
Definition top_k_indices `{Numpy} (similarities : list Q) (k : Z)
    : list nat :=
  rev (slice_from (- k) (argsort similarities)).

Record Retrieved := mkRetrieved {
  passage : Passage;
  score : Q
}.

(** The loop [for idx in top_k_indices] on the list [results];
    [self.passages[idx]] raises [IndexError] out of range. *)
Fixpoint collect_results (all_passages : list Passage) (similarities : list Q)
    (indices : list nat) (results : list Retrieved) : result (list Retrieved) :=
  match indices with
  | [] => Ok results
  | idx :: rest =>
      match nth_error all_passages idx with
      | None => Raise IndexError
      | Some p =>
          collect_results all_passages similarities rest
            (results ++ [mkRetrieved p (sim_at similarities idx)])
      end
  end.

(** [cosine_similarity(query_vector, passage_vectors)[0]]: the row of the
    similarities of the query to every indexed passage. *)
Definition cosine_similarities `{Sklearn} (query_vector : Vector)
    (vectors : list Vector) : list Q :=
  map (cosine_similarity query_vector) vectors.

Definition retrieve `{Sklearn} `{Numpy} (sys : RAGSystem) (query : str)
    (k : Z) : result (list Retrieved) :=
  let preprocessed_query := preprocess_text query in
  match vectorizer sys with
  | None => Raise NotFittedError
  | Some v =>
      let query_vector := transform v preprocessed_query in
      match passage_vectors sys with
      | None => Raise TypeError
      | Some vectors =>
          let similarities := cosine_similarities query_vector vectors in
          collect_results (passages sys) similarities
            (top_k_indices similarities k) []
      end
  end.

(** The value of the variable [similarities] of [retrieve] for a query on
    a fitted system. *)
Definition similarities_of `{Sklearn} (sys : RAGSystem) (query : str) : list Q :=
  match vectorizer sys, passage_vectors sys with
  | Some v, Some vectors =>
      cosine_similarities (transform v (preprocess_text query)) vectors
  | _, _ => []
  end.

(** ** Answer extractor *)

(** The set [stop_words] of [RAGSystem.extract_keywords]. *)
Definition stop_words : list str :=
  map lit ["what"; "is"; "the"; "how"; "do"; "i"; "does"; "have"; "for";
           "many"; "long"; "to"; "a"; "an"; "are"; "get"; "can"; "my";
           "schedule"; "take"]%string.

(** [w in l] on a collection of strings. *)
Definition str_mem (w : str) (l : list str) : bool := existsb (str_eqb w) l.

(** [RAGSystem.extract_keywords]: the comprehension filters on [w.lower()]
    and strips the punctuation of the words it keeps. *)
Definition extract_keywords (query : str) : list str :=
  let words := split (lower query) in
  map (strip_chars in_punctuation)
      (filter (fun w => negb (str_mem (lower w) stop_words)) words).

(** [re.search(r'\d+', sentence)] finds a match. *)
Definition has_digit (sentence : str) : bool := existsb isdigit sentence.

(** [RAGSystem.score_sentence_relevance]; every [let score] is one
    update of the variable [score]. *)
Definition score_sentence_relevance (sentence : str) (keywords : list str)
    (query_lower : str) : Z :=
  let sentence_lower := lower sentence in
  let score := 0 in
  let score :=
    fold_left (fun score keyword =>
                 if contains sentence_lower keyword then score + 2 else score)
              keywords score in
  let query_words := split query_lower in
  let score :=
    fold_left (fun score word =>
                 if (3 <? Z.of_nat (length word)) && contains sentence_lower word
                 then score + 1 else score)
              query_words score in
  let word_count := word_count sentence in
  let score := if 50 <? word_count then score - 2 else score in
  let score := if has_digit sentence then score + 1 else score in
  score.

Record Candidate := mkCandidate {
  cand_sentence : str;
  cand_score : Z;
  cand_source : str;
  cand_passage_score : Q
}.

(** The answer of the low-confidence guard. *)
Definition no_information : str :=
  lit "I couldn't find relevant information to answer this question.".

(** The confidence floor, the literal [0.01]. *)
Definition confidence_floor : Q := 1 # 100.

(** The inner loop [for sentence in sentences] on [candidate_sentences]. *)
Definition consider_sentence (keywords : list str) (query_lower : str)
    (result : Retrieved) (candidate_sentences : list Candidate)
    (sentence : str) : list Candidate :=
  if word_count sentence <? 5 then candidate_sentences
  else
    let relevance_score :=
      score_sentence_relevance sentence keywords query_lower in
    if 0 <? relevance_score
    then candidate_sentences ++
           [mkCandidate sentence relevance_score
              (source (passage result)) (score result)]
    else candidate_sentences.

(** The outer loop [for result in retrieved_results]. *)
Definition consider_result (keywords : list str) (query_lower : str)
    (candidate_sentences : list Candidate) (result : Retrieved)
    : list Candidate :=
  fold_left (consider_sentence keywords query_lower result)
            (split_into_sentences (text (passage result)))
            candidate_sentences.

(** The sort key [(x['score'], x['passage_score'])] compared as Python
    compares tuples. *)
Definition key_lt (a b : Candidate) : bool :=
  (cand_score a <? cand_score b) ||
  ((cand_score a =? cand_score b) &&
   Qlt_bool (cand_passage_score a) (cand_passage_score b)).

(** [list.sort(key=..., reverse=True)]: descending, and stable (equal
    keys stay in their order). *)
Fixpoint sort_insert (x : Candidate) (sorted : list Candidate) : list Candidate :=
  match sorted with
  | [] => [x]
  | y :: rest => if key_lt x y then y :: sort_insert x rest else x :: sorted
  end.

Definition sort_reverse (l : list Candidate) : list Candidate :=
  fold_right sort_insert [] l.

(** [RAGSystem.generate_answer]. *)
Definition generate_answer (query : str) (retrieved_results : list Retrieved)
    : str * list str :=
  match retrieved_results with
  | [] => (no_information, [])
  | top :: _ =>
      if Qlt_bool (score top) confidence_floor then (no_information, [])
      else
        let keywords := extract_keywords query in
        let query_lower := lower query in
        let candidate_sentences :=
          fold_left (consider_result keywords query_lower)
                    retrieved_results [] in
        let (best_sentence, best_source) :=
          match candidate_sentences with
          | [] =>
              let top_passage := passage top in
              let sentences := split_into_sentences (text top_passage) in
              (match sentences with
               | s :: _ => s
               | [] => text top_passage
               end, source top_passage)
          | first :: _ =>
              let best := hd first (sort_reverse candidate_sentences) in
              (cand_sentence best, cand_source best)
          end in
        let best_sentence := strip best_sentence in
        let best_sentence :=
          if negb (ends_with_terminator best_sentence)
          then best_sentence ++ lit "." else best_sentence in
        (best_sentence, [best_source])
  end.

(** [RAGSystem.answer_query]. *)
Definition answer_query `{Sklearn} `{Numpy} (sys : RAGSystem) (query : str)
    (k : Z)
    : result (str * list str) :=
  retrieved_results <- retrieve sys query k ;;
  Ok (generate_answer query retrieved_results).

(** ** A vectorizer to run the pipeline on

    Term counts over the words of the corpus, compared by their dot
    product.  Like the cosine of TF-IDF vectors it is zero for a query
    that shares no word with a passage, and equal for equal passages. *)

Module TermCount.

Definition count_of (w : str) (t : str) : Q :=
  inject_Z (Z.of_nat (length (filter (str_eqb w) (split t)))).

Fixpoint dot (u v : list Q) : Q :=
  match u, v with
  | x :: u', y :: v' => (x * y + dot u' v')%Q
  | _, _ => 0%Q
  end.

#[export] Instance sklearn : Sklearn := {|
  Vocabulary := list str;
  Vector := list Q;
  fit texts :=
    match flat_map split texts with
    | [] => None
    | w :: ws => Some (nodup (list_eq_dec ascii_dec) (w :: ws))
    end;
  transform vocabulary t := map (fun w => count_of w t) vocabulary;
  cosine_similarity := dot
|}.

End TermCount.

(** ** A sort to run the pipeline on

    Sorting the indices by insertion, which happens to keep equal
    similarities in index order.  It is one [argsort] among many (see
    [Numpy]); only what is proved for every [Numpy] speaks of numpy. *)

Module Insertion.

Fixpoint argsort_insert (similarities : list Q) (i : nat) (sorted : list nat)
    : list nat :=
  match sorted with
  | [] => [i]
  | j :: rest =>
      if Qle_bool (sim_at similarities i) (sim_at similarities j)
      then i :: sorted
      else j :: argsort_insert similarities i rest
  end.

Definition argsort (similarities : list Q) : list nat :=
  fold_right (argsort_insert similarities) [] (seq 0 (length similarities)).

End Insertion.

(** ** A small collection

    Two files of one sentence each, ingested with the default passage
    size and indexed with the vectorizer above. *)

Definition demo_files : list (str * str) :=
  [(lit "returns.txt", lit "Returns take five days to process.");
   (lit "warranty.txt", lit "The warranty lasts two years.")].

Definition demo : @RAGSystem TermCount.sklearn :=
  ingest_documents demo_files (new_system 120).

Definition demo_indexed : @RAGSystem TermCount.sklearn :=
  match index_passages demo with
  | Ok sys => sys
  | Raise _ => demo
  end.

Definition returns_passage : Passage :=
  mkPassage (lit "Returns take five days to process.") (lit "returns.txt")
            (lit "returns.txt_passage_0").

Definition warranty_passage : Passage :=
  mkPassage (lit "The warranty lasts two years.") (lit "warranty.txt")
            (lit "warranty.txt_passage_0").

(** ** Notions the statements are written with *)

Definition no_space (w : str) : Prop := Forall (fun c => isspace c = false) w.

(** A word: what [split] returns the list of. *)
Definition is_word (w : str) : Prop := w <> [] /\ no_space w.

(** A character that the first two steps of the normalizer leave alone. *)
Definition normal_char (c : ascii) : Prop :=
  lower_char c = c /\ in_punctuation c = false.

(** The rule of the sentence splitter, as the specification words it: a
    trimmed fragment is kept when it is not empty and either ends with
    one of [.!?] or has more than 5 words. *)
Definition kept (s : str) : bool :=
  negb (str_eqb s []) && (ends_with_terminator s || (5 <? word_count s)).

(** A kept fragment without terminal punctuation gets a full stop. *)
Definition terminated (s : str) : str :=
  if ends_with_terminator s then s else s ++ lit ".".

(** [sub] occurs in [s] as a contiguous substring. *)
Definition substring (sub s : str) : Prop :=
  exists pre post, s = pre ++ sub ++ post.

(** The passage bound: a passage has at most [max_words] words, unless
    it is one sentence that alone has more. *)
Definition within_bound (max_words : Z) (sentences : list str) (p : str) : Prop :=
  word_count p <= max_words \/ (In p sentences /\ max_words < word_count p).

(** The invariant of the loop of the segmenter, [sentences] being all
    the sentences of the text. *)
Record segmenter_inv (m : Z) (sentences : list str) (st : segmenter) : Prop := {
  inv_passages : Forall (within_bound m sentences) (seg_passages st);
  inv_count : current_word_count st =
              fold_right Z.add 0 (map word_count (current_passage st));
  inv_current : current_passage st = [] \/
                current_word_count st <= m \/
                exists s, current_passage st = [s] /\ In s sentences
}.

(** The order of a ranking: [i] is listed before [j] when its similarity
    is higher; [tie i j] says which of two equally similar passages comes
    first. *)
Definition ranked_before (tie : nat -> nat -> Prop) (similarities : list Q)
    (i j : nat) : Prop :=
  (sim_at similarities j < sim_at similarities i)%Q \/
  ((sim_at similarities i == sim_at similarities j)%Q /\ tie i j).

(** Ties broken by ascending passage index: the lower index first. *)
Definition lower_index_first (i j : nat) : Prop := (i < j)%nat.

(** No rule for ties: equally similar passages come in any order. *)
Definition any_order (i j : nat) : Prop := True.

(** [results] are the top [k] of [all_passages] for the given
    similarities and tie rule: they are the passages at some distinct
    indices [idxs], with their similarities, [min k n] of them, listed in
    ranking order, and every returned passage ranks before every passage
    that is not returned. *)
Definition is_top_k (tie : nat -> nat -> Prop) (all_passages : list Passage)
    (similarities : list Q) (k : Z) (results : list Retrieved) : Prop :=
  exists idxs : list nat,
    Forall2 (fun i r => nth_error all_passages i = Some (passage r) /\
                        score r = sim_at similarities i) idxs results /\
    Z.of_nat (length idxs) = Z.min k (Z.of_nat (length all_passages)) /\
    StronglySorted (ranked_before tie similarities) idxs /\
    (forall i j, In i idxs -> (j < length all_passages)%nat -> ~ In j idxs ->
                 ranked_before tie similarities i j) /\
    NoDup idxs.

(** A string that neither starts nor ends with a character of a set:
    what stripping leaves. *)
Definition trimmed (chars : ascii -> bool) (s : str) : Prop :=
  match s with [] => True | c :: _ => chars c = false end /\
  match rev s with [] => True | c :: _ => chars c = false end.

(** The passages the loop body of [ingest_documents] makes of one file. *)
Definition passages_of_file (max_words : Z) (file : str * str) : list Passage :=
  map (fun ip : nat * str =>
         mkPassage (snd ip) (fst file)
           (fst file ++ lit "_passage_" ++ str_of_nat (fst ip)))
      (enumerate (create_passages max_words (snd file) (fst file))).

(** The value of the variable [candidate_sentences] of [generate_answer]
    after its two loops. *)
Definition candidate_sentences_of (query : str) (results : list Retrieved)
    : list Candidate :=
  fold_left (consider_result (extract_keywords query) (lower query)) results [].

(** The candidates one retrieved passage contributes: its sentences of
    at least 5 words with a positive relevance score, in order. *)
Definition candidates_of_result (keywords : list str) (query_lower : str)
    (r : Retrieved) : list Candidate :=
  map (fun s => mkCandidate s (score_sentence_relevance s keywords query_lower)
                            (source (passage r)) (score r))
      (filter (fun s => negb (word_count s <? 5) &&
                        (0 <? score_sentence_relevance s keywords query_lower))
              (split_into_sentences (text (passage r)))).

(** [c] is a candidate made of a sentence of the retrieved passage [r]. *)
Definition candidate_from (query : str) (r : Retrieved) (c : Candidate) : Prop :=
  In (cand_sentence c) (split_into_sentences (text (passage r))) /\
  cand_source c = source (passage r) /\
  cand_passage_score c = score r /\
  cand_score c =
    score_sentence_relevance (cand_sentence c) (extract_keywords query)
                             (lower query) /\
  0 < cand_score c /\ 5 <= word_count (cand_sentence c).

(** Whether the scan of [re.split], started inside a fragment, goes
    through [s] without meeting a separator (a whitespace character
    right after a terminator)... *)
Fixpoint no_separator (after_terminator : bool) (s : str) : bool :=
  match s with
  | [] => true
  | c :: s' =>
      if isspace c then negb after_terminator && no_separator false s'
      else no_separator (is_terminator c) s'
  end.

(** ...and whether it then stands right after a terminator. *)
Fixpoint end_state (after_terminator : bool) (s : str) : bool :=
  match s with
  | [] => after_terminator
  | c :: s' =>
      if isspace c then end_state false s'
      else end_state (is_terminator c) s'
  end.

(** What the splitter guarantees of each sentence it returns, and what
    it needs to find the sentence again in a passage. *)
Definition sentence_ok (s : str) : Prop :=
  s <> [] /\ ends_with_terminator s = true /\ strip s = s /\
  no_separator false s = true.

(** The state of the scan of [re.split] agrees with the fragment read so
    far. *)
Definition scan_ok (st : scan) (cur : str) : Prop :=
  match st with
  | InText t => no_separator false (rev cur) = true /\
                end_state false (rev cur) = t
  | InSeparator => cur = []
  end.

(** * Properties *)

(** ** Characters *)

Ltac each_char c := destruct c as [[|] [|] [|] [|] [|] [|] [|] [|]].

Lemma lower_char_idem (c : ascii) : lower_char (lower_char c) = lower_char c.
Proof. each_char c; reflexivity. Qed.

Lemma space_is_space : isspace " "%char = true.
Proof. reflexivity. Qed.

(** ** [split] and [join] *)

Lemma split_cons_space c s : isspace c = true -> split (c :: s) = split s.
Proof. intros H; simpl; rewrite H; reflexivity. Qed.

Lemma split_words (s : str) : Forall is_word (split s).
Proof.
  induction s as [|c s IH]; simpl; [constructor|].
  destruct (isspace c) eqn:Hc; [exact IH|].
  destruct s as [|d s'].
  - repeat constructor; [discriminate | exact Hc].
  - destruct (isspace d) eqn:Hd.
    + constructor; [| exact IH].
      split; [discriminate | repeat constructor; exact Hc].
    + destruct (split (d :: s')) as [|w ws]; simpl.
      * repeat constructor; [discriminate | exact Hc].
      * inversion IH as [|? ? [_ Hw] Hws]; subst.
        constructor; [| exact Hws].
        split; [discriminate | constructor; assumption].
Qed.

Lemma split_chars (s w : str) (c : ascii) :
  In w (split s) -> In c w -> In c s.
Proof.
  revert w; induction s as [|a s IH]; simpl; intros w Hw Hc; [contradiction|].
  destruct (isspace a) eqn:Ha; [right; eauto|].
  destruct s as [|d s'].
  - destruct Hw as [<-|[]]. destruct Hc as [<-|[]]. now left.
  - destruct (isspace d) eqn:Hd.
    + destruct Hw as [<-|Hw]; [destruct Hc as [<-|[]]; now left | right; eauto].
    + destruct (split (d :: s')) as [|w0 ws]; simpl in Hw.
      * destruct Hw as [<-|[]]. destruct Hc as [<-|[]]. now left.
      * destruct Hw as [<-|Hw].
        -- destruct Hc as [<-|Hc]; [now left | right; apply (IH w0); simpl; auto].
        -- right; apply (IH w); simpl; auto.
Qed.

Lemma split_word (w : str) : is_word w -> split w = [w].
Proof.
  intros [Hne Hw]. induction Hw as [|c w Hc Hw IH]; [congruence|].
  simpl. rewrite Hc. destruct w as [|d w']; [reflexivity|].
  inversion Hw as [|? ? Hd _]; subst. rewrite Hd.
  rewrite IH by discriminate. reflexivity.
Qed.

Lemma split_first_word (d : ascii) (s : str) :
  isspace d = false -> split (d :: s) <> [].
Proof.
  intros Hd; simpl; rewrite Hd. destruct s as [|e s']; [discriminate|].
  destruct (isspace e); [discriminate|].
  destruct (split (e :: s')); discriminate.
Qed.

Lemma split_cons (c : ascii) (s : str) :
  split (c :: s) =
  if isspace c then split s
  else match s with
       | [] => [[c]]
       | d :: _ => if isspace d then [c] :: split s else cons_head c (split s)
       end.
Proof. reflexivity. Qed.

Lemma split_app_space (a b : str) (sp : ascii) :
  isspace sp = true -> split (a ++ sp :: b) = split a ++ split b.
Proof.
  intros Hsp. induction a as [|c a IH].
  - simpl; rewrite Hsp; reflexivity.
  - change ((c :: a) ++ sp :: b) with (c :: (a ++ sp :: b)).
    rewrite (split_cons c (a ++ sp :: b)), (split_cons c a), IH.
    destruct (isspace c); [reflexivity|].
    destruct a as [|d a'].
    + simpl. rewrite Hsp. reflexivity.
    + change ((d :: a') ++ sp :: b) with (d :: (a' ++ sp :: b)).
      cbv beta iota.
      destruct (isspace d) eqn:Hd; [reflexivity|].
      pose proof (split_first_word d a' Hd) as Hne.
      destruct (split (d :: a')); [congruence | reflexivity].
Qed.

Lemma join_cons (sep x : str) (rest : list str) :
  rest <> [] -> join sep (x :: rest) = x ++ sep ++ join sep rest.
Proof. destruct rest; [congruence | reflexivity]. Qed.

Lemma join_app (sep : str) (l1 l2 : list str) :
  l1 <> [] -> l2 <> [] ->
  join sep (l1 ++ l2) = join sep l1 ++ sep ++ join sep l2.
Proof.
  intros H1 H2. induction l1 as [|x l1 IH]; [congruence|].
  destruct l1 as [|y l1].
  - simpl app. rewrite join_cons by assumption. reflexivity.
  - change ((x :: y :: l1) ++ l2) with (x :: ((y :: l1) ++ l2)).
    rewrite join_cons by discriminate.
    rewrite IH by discriminate.
    rewrite (join_cons sep x (y :: l1)) by discriminate.
    rewrite <- !app_assoc. reflexivity.
Qed.

Lemma join_Forall (P : ascii -> Prop) (sep : str) (l : list str) :
  Forall P sep -> Forall (Forall P) l -> Forall P (join sep l).
Proof.
  intros Hsep Hl. induction Hl as [|x l Hx Hl IH]; [constructor|].
  destruct l as [|y l]; [exact Hx|].
  rewrite join_cons by discriminate.
  apply Forall_app; split; [exact Hx|].
  apply Forall_app; split; [exact Hsep | exact IH].
Qed.

Lemma split_join_concat (l : list str) :
  split (join space l) = concat (map split l).
Proof.
  induction l as [|x l IH]; [reflexivity|].
  destruct l as [|y l].
  - simpl. rewrite app_nil_r. reflexivity.
  - rewrite join_cons by discriminate.
    change (x ++ space ++ join space (y :: l))
      with (x ++ " "%char :: join space (y :: l)).
    rewrite split_app_space by reflexivity.
    rewrite IH. reflexivity.
Qed.

Lemma split_join (ws : list str) :
  Forall is_word ws -> split (join space ws) = ws.
Proof.
  intros H. rewrite split_join_concat.
  induction H as [|w ws Hw _ IH]; [reflexivity|].
  simpl. rewrite split_word by assumption. rewrite IH. reflexivity.
Qed.

(** The word count of a passage is the sum of those of its sentences. *)
Lemma word_count_join (l : list str) :
  word_count (join space l) = fold_right Z.add 0 (map word_count l).
Proof.
  unfold word_count. rewrite split_join_concat.
  induction l as [|x l IH]; [reflexivity|].
  simpl. rewrite length_app, Nat2Z.inj_add, IH. reflexivity.
Qed.

(** ** Text normalizer *)

Lemma normal_chars_fixed (s : str) :
  Forall normal_char s -> delete_chars in_punctuation (lower s) = s.
Proof.
  induction 1 as [|c s [Hl Hp] _ IH]; [reflexivity|].
  unfold delete_chars, lower in *. simpl. rewrite Hl, Hp. simpl.
  now rewrite IH.
Qed.

Lemma lowered_deleted_normal (x : str) :
  Forall normal_char (delete_chars in_punctuation (lower x)).
Proof.
  apply Forall_forall. intros c Hc.
  apply filter_In in Hc. destruct Hc as [Hin Hp].
  apply in_map_iff in Hin. destruct Hin as [c' [<- _]].
  split; [apply lower_char_idem | now apply negb_true_iff in Hp].
Qed.

Lemma preprocess_text_normal (x : str) :
  Forall normal_char (preprocess_text x).
Proof.
  unfold preprocess_text. apply join_Forall.
  - repeat constructor.
  - apply Forall_forall. intros w Hw. apply Forall_forall. intros c Hc.
    pose proof (lowered_deleted_normal x) as Hn.
    rewrite Forall_forall in Hn. apply Hn.
    eapply split_chars; eassumption.
Qed.

(** C7: text normalization is idempotent: normalizing a normalized text
    (lowercased, punctuation removed, whitespace collapsed) changes
    nothing. *)
Theorem preprocess_text_idempotent (x : str) :
  preprocess_text (preprocess_text x) = preprocess_text x.
Proof.
  unfold preprocess_text at 1.
  rewrite (normal_chars_fixed _ (preprocess_text_normal x)).
  unfold preprocess_text. rewrite split_join by apply split_words.
  reflexivity.
Qed.

(** ** Sentence splitter *)

Lemma str_eqb_eq (a b : str) : str_eqb a b = true <-> a = b.
Proof.
  unfold str_eqb. destruct (list_eq_dec ascii_dec a b); split; congruence.
Qed.

Lemma clean_sentence_kept (cleaned : list str) (s : str) :
  clean_sentence cleaned s =
  if kept (strip s) then cleaned ++ [terminated (strip s)] else cleaned.
Proof.
  unfold clean_sentence, kept, terminated.
  destruct (negb (str_eqb (strip s) []) &&
            (ends_with_terminator (strip s) || (5 <? word_count (strip s))));
    [|reflexivity].
  destruct (ends_with_terminator (strip s)); reflexivity.
Qed.

Lemma clean_sentences_from (fragments cleaned : list str) :
  fold_left clean_sentence fragments cleaned =
  cleaned ++ map terminated (filter kept (map strip fragments)).
Proof.
  revert cleaned. induction fragments as [|s l IH]; intros cleaned; simpl.
  - now rewrite app_nil_r.
  - rewrite IH, clean_sentence_kept.
    destruct (kept (strip s)); [|reflexivity].
    simpl. rewrite <- app_assoc. reflexivity.
Qed.

Lemma ends_with_terminator_spec (s : str) :
  ends_with_terminator s = true <->
  exists c, last_char s = Some c /\
            (c = "."%char \/ c = "!"%char \/ c = "?"%char).
Proof.
  unfold ends_with_terminator, is_terminator.
  destruct (last_char s) as [c|].
  - rewrite !orb_true_iff, !Ascii.eqb_eq. split.
    + intros H. exists c. split; [reflexivity | tauto].
    + intros [c' [Hc H]]. injection Hc as ->. tauto.
  - split; [discriminate | intros [c [Hc _]]; discriminate].
Qed.

(** C5: the sentence splitter keeps a trimmed fragment if and only if it
    is non-empty and either its last character is one of [.], [!], [?] or
    it has more than 5 words; a kept fragment that lacks terminal
    punctuation gets a [.] appended; the output keeps the order of the
    fragments in the text. *)
Theorem split_into_sentences_spec (text : str) :
  (forall s, kept s = true <->
             s <> [] /\
             ((exists c, last_char s = Some c /\
                         (c = "."%char \/ c = "!"%char \/ c = "?"%char))
              \/ 5 < word_count s))
  /\ (forall s, terminated s =
                if ends_with_terminator s then s else s ++ lit ".")
  /\ split_into_sentences text =
     map terminated (filter kept (map strip (re_split_sentences text))).
Proof.
  split; [|split].
  - intros s. unfold kept.
    rewrite andb_true_iff, orb_true_iff, negb_true_iff, Z.ltb_lt.
    rewrite <- ends_with_terminator_spec.
    assert (str_eqb s [] = false <-> s <> []) as ->; [|tauto].
    pose proof (str_eqb_eq s []) as H.
    destruct (str_eqb s []); split; intros; try congruence.
    + exfalso. tauto.
    + intros E. apply H in E. discriminate.
  - reflexivity.
  - unfold split_into_sentences. apply clean_sentences_from.
Qed.

(** The splitter on a text with a double space after a full stop, a
    title line without punctuation and a separator at the end. *)
Example split_into_sentences_example :
  split_into_sentences (lit "Hi there.  Title
one two three four five six  ok! ")
  = [lit "Hi there."; lit "Title
one two three four five six  ok!"]
  /\ split_into_sentences (lit "Care Guide
Wash by hand. Dry") = [lit "Care Guide
Wash by hand."].
Proof. split; vm_compute; reflexivity. Qed.

(** ** Relevance score *)

Lemma startswith_spec (a b : str) :
  startswith a b = true <-> exists post, a = b ++ post.
Proof.
  revert a. induction b as [|y b IH]; intros a.
  - destruct a; simpl; split; eauto.
  - destruct a as [|x a]; simpl.
    + split; [discriminate | intros [post H]; discriminate].
    + rewrite andb_true_iff, Ascii.eqb_eq, IH. split.
      * intros [-> [post ->]]. eauto.
      * intros [post H]. injection H as -> ->. eauto.
Qed.

Lemma contains_spec (s sub : str) :
  contains s sub = true <-> substring sub s.
Proof.
  unfold substring. induction s as [|x s IH].
  - cbn [contains]. rewrite orb_false_r, startswith_spec. split.
    + intros [post H]. exists [], post. exact H.
    + intros [pre [post H]]. destruct pre; [eauto | discriminate].
  - cbn [contains]. rewrite orb_true_iff, startswith_spec, IH. split.
    + intros [[post H] | [pre [post H]]].
      * exists [], post. exact H.
      * exists (x :: pre), post. rewrite H. reflexivity.
    + intros [pre [post H]]. destruct pre as [|y pre].
      * left. eauto.
      * right. injection H as _ H. eauto.
Qed.

Lemma has_digit_spec (s : str) :
  has_digit s = true <-> exists c, In c s /\ (48 <= code c <= 57)%N.
Proof.
  unfold has_digit. rewrite existsb_exists.
  split; intros [c [Hin H]]; exists c; (split; [exact Hin|]);
    unfold isdigit, between in *;
    rewrite andb_true_iff, !N.leb_le in *; exact H.
Qed.

Lemma count_loop {A} (hit : A -> bool) (w : Z) (l : list A) (score : Z) :
  fold_left (fun score x => if hit x then score + w else score) l score =
  score + w * Z.of_nat (length (filter hit l)).
Proof.
  revert score. induction l as [|x l IH]; intros score; simpl; [lia|].
  rewrite IH. destruct (hit x); simpl length; lia.
Qed.

(** C9: the relevance score of a sentence is exactly +2 per keyword that
    is a substring of the lowercased sentence, +1 per word of the
    lowercased query longer than 3 characters that is a substring of the
    lowercased sentence, -2 if the sentence has more than 50 words, and
    +1 if the sentence contains a digit. *)
Theorem score_sentence_relevance_spec (sentence : str) (keywords : list str)
    (query : str) :
  (forall sub, contains (lower sentence) sub = true <->
               substring sub (lower sentence))
  /\ (has_digit sentence = true <->
      exists c, In c sentence /\ (48 <= code c <= 57)%N)
  /\ score_sentence_relevance sentence keywords (lower query) =
     2 * Z.of_nat (length (filter (contains (lower sentence)) keywords))
     + Z.of_nat (length (filter (fun w => (3 <? Z.of_nat (length w))
                                          && contains (lower sentence) w)
                                (split (lower query))))
     - (if 50 <? word_count sentence then 2 else 0)
     + (if has_digit sentence then 1 else 0).
Proof.
  split; [intros sub; apply contains_spec|].
  split; [apply has_digit_spec|].
  unfold score_sentence_relevance.
  rewrite (count_loop (contains (lower sentence)) 2).
  rewrite (count_loop (fun w => (3 <? Z.of_nat (length w))
                                && contains (lower sentence) w) 1).
  destruct (50 <? word_count sentence), (has_digit sentence); lia.
Qed.

(** ** Passage segmenter *)

Lemma truthy_false {A} (l : list A) : truthy l = false <-> l = [].
Proof. destruct l; simpl; split; congruence. Qed.

Lemma truthy_true {A} (l : list A) : truthy l = true <-> l <> [].
Proof. destruct l; simpl; split; congruence. Qed.

Lemma join_snoc_last (ps cur : list str) (s : str) :
  cur <> [] ->
  join space (ps ++ [join space (cur ++ [s])]) =
  join space ((ps ++ [join space cur]) ++ [s]).
Proof.
  intros Hcur.
  assert (join space [join space cur; s] = join space (cur ++ [s])) as E.
  { rewrite join_app by (assumption || discriminate). reflexivity. }
  rewrite <- app_assoc. simpl app.
  destruct ps as [|p ps].
  - simpl app. rewrite E. reflexivity.
  - rewrite !(join_app space (p :: ps)) by discriminate.
    rewrite E. reflexivity.
Qed.

Lemma flush_add_sentence (m : Z) (st : segmenter) (s : str) :
  flush (add_sentence m st s) <> [] /\
  join space (flush (add_sentence m st s)) = join space (flush st ++ [s]).
Proof.
  unfold add_sentence, flush.
  destruct (current_passage st) as [|c cur] eqn:Hcur.
  - rewrite andb_false_r. simpl. split; [|reflexivity].
    destruct (seg_passages st); discriminate.
  - destruct ((m <? current_word_count st + word_count s) && truthy (c :: cur)).
    + simpl. split; [|reflexivity].
      destruct (seg_passages st); discriminate.
    + cbn [current_passage seg_passages truthy app].
      split; [destruct (seg_passages st); discriminate|].
      change (c :: cur ++ [s]) with ((c :: cur) ++ [s]).
      apply join_snoc_last. discriminate.
Qed.

Lemma join_app_cong (a a' l : list str) :
  a <> [] -> a' <> [] -> join space a = join space a' ->
  join space (a ++ l) = join space (a' ++ l).
Proof.
  intros Ha Ha' E. destruct l as [|x l].
  - rewrite !app_nil_r. exact E.
  - rewrite !join_app by (assumption || discriminate). rewrite E. reflexivity.
Qed.

Lemma join_segment_from (m : Z) (sentences : list str) (st : segmenter) :
  join space (flush (fold_left (add_sentence m) sentences st)) =
  join space (flush st ++ sentences).
Proof.
  revert st. induction sentences as [|s l IH]; intros st; simpl.
  - rewrite app_nil_r. reflexivity.
  - rewrite IH.
    destruct (flush_add_sentence m st s) as [Hne E].
    rewrite (join_app_cong _ (flush st ++ [s]) l Hne); [| |exact E].
    + rewrite <- app_assoc. reflexivity.
    + destruct (flush st); discriminate.
Qed.

(** C8: the passages of a text, joined by single spaces, are the
    sentences of the sentence splitter joined by single spaces: the
    segmenter drops no sentence and keeps their order. *)
Theorem create_passages_complete (max_words : Z) (text filename : str) :
  join space (create_passages max_words text filename) =
  join space (split_into_sentences text).
Proof.
  unfold create_passages, segment. rewrite join_segment_from. reflexivity.
Qed.

Lemma current_within_bound (m : Z) (sentences : list str) (st : segmenter) :
  segmenter_inv m sentences st -> current_passage st <> [] ->
  within_bound m sentences (join space (current_passage st)).
Proof.
  intros [_ Hc Hcur] Hne. unfold within_bound.
  rewrite word_count_join, <- Hc.
  destruct Hcur as [E | [Hle | [s [E Hin]]]]; [congruence | now left |].
  rewrite E in *. simpl in *.
  destruct (Z.le_gt_cases (current_word_count st) m); [now left | right].
  split; [exact Hin | assumption].
Qed.

Lemma add_sentence_inv (m : Z) (sentences : list str) (st : segmenter) (s : str) :
  segmenter_inv m sentences st -> In s sentences ->
  segmenter_inv m sentences (add_sentence m st s).
Proof.
  intros Hinv Hin. pose proof Hinv as [Hp Hc Hcur]. unfold add_sentence.
  destruct ((m <? current_word_count st + word_count s)
            && truthy (current_passage st)) eqn:Hif.
  - apply andb_true_iff in Hif. destruct Hif as [_ Hne].
    apply truthy_true in Hne.
    constructor; simpl.
    + apply Forall_app. split; [exact Hp|].
      constructor; [|constructor]. now apply current_within_bound.
    + lia.
    + right; right. eauto.
  - apply andb_false_iff in Hif.
    constructor; simpl.
    + exact Hp.
    + rewrite map_app, fold_right_app. simpl.
      rewrite Hc. generalize (word_count s). clear.
      induction (current_passage st) as [|x l IH]; intros z; simpl; [lia|].
      rewrite <- IH. lia.
    + destruct Hif as [Hle | Hemp].
      * right; left. apply Z.ltb_ge in Hle. exact Hle.
      * apply truthy_false in Hemp. right; right. exists s.
        rewrite Hemp. split; [reflexivity | exact Hin].
Qed.

Lemma segment_inv (m : Z) (sentences l : list str) (st : segmenter) :
  segmenter_inv m sentences st -> incl l sentences ->
  segmenter_inv m sentences (fold_left (add_sentence m) l st).
Proof.
  revert st. induction l as [|s l IH]; intros st Hinv Hl; simpl; [exact Hinv|].
  apply IH.
  - apply add_sentence_inv; [exact Hinv | apply Hl; now left].
  - intros x Hx. apply Hl. now right.
Qed.

Lemma segment_within_bound (m : Z) (sentences : list str) :
  Forall (within_bound m sentences) (segment m sentences).
Proof.
  unfold segment, flush.
  assert (segmenter_inv m sentences
            (fold_left (add_sentence m) sentences segmenter_init)) as Hinv.
  { apply segment_inv; [|apply incl_refl].
    constructor; simpl; [constructor | reflexivity | now left]. }
  destruct (truthy _) eqn:Ht; [|apply Hinv].
  apply Forall_app. split; [apply Hinv|].
  constructor; [|constructor].
  apply current_within_bound; [exact Hinv | now apply truthy_true].
Qed.

(** C6: every passage the segmenter produces has at most
    [max_words_per_passage] words, except a passage that is a single
    sentence of the text whose own word count exceeds the maximum. *)
Theorem create_passages_bound (max_words : Z) (text filename : str) :
  Forall (fun p =>
            word_count p <= max_words \/
            (In p (split_into_sentences text) /\ max_words < word_count p))
         (create_passages max_words text filename).
Proof. apply segment_within_bound. Qed.

(** ** Answer extractor *)

Lemma Qlt_bool_iff (a b : Q) : Qlt_bool a b = true <-> (a < b)%Q.
Proof.
  unfold Qlt_bool. rewrite negb_true_iff.
  destruct (Qle_bool b a) eqn:E.
  - apply Qle_bool_iff in E. split; [discriminate|].
    intros H. exfalso. exact (Qlt_not_le _ _ H E).
  - split; [|reflexivity]. intros _. apply Qnot_le_lt.
    intros H. apply Qle_bool_iff in H. congruence.
Qed.

(** C4: when the list of retrieval results is empty or the score of the
    top result is below 0.01, answer generation returns the canned
    sentence and an empty list of sources. *)
Theorem generate_answer_low_confidence (query : str) (results : list Retrieved) :
  results = [] \/
  (exists top rest, results = top :: rest /\ (score top < 1 # 100)%Q) ->
  generate_answer query results =
  (lit "I couldn't find relevant information to answer this question.", []).
Proof.
  intros [-> | [top [rest [-> Hlow]]]]; [reflexivity|].
  unfold generate_answer.
  apply Qlt_bool_iff in Hlow. unfold confidence_floor. rewrite Hlow.
  reflexivity.
Qed.

Lemma generate_answer_low_confidence_witness :
  let results := [mkRetrieved (mkPassage (lit "Returns take 5 days.")
                                 (lit "returns.txt")
                                 (lit "returns.txt_passage_0")) (1 # 200)] in
  (results = [] \/
   (exists top rest, results = top :: rest /\ (score top < 1 # 100)%Q)) /\
  generate_answer (lit "How long is the warranty?") results
  = (lit "I couldn't find relevant information to answer this question.", []).
Proof.
  intros results.
  assert (results = [] \/
          (exists top rest, results = top :: rest /\ (score top < 1 # 100)%Q))
    as Hyp.
  { right. eexists. eexists. split; reflexivity. }
  split; [exact Hyp|].
  apply generate_answer_low_confidence. exact Hyp.
Defined.

(** C10, where the code departs from it: the query [what?] is one stop
    word with a question mark; the filter looks for [what?] in the
    stop-word set, does not find it, and the word is kept and then
    stripped: the stop word [what] is returned as a keyword. *)
Theorem extract_keywords_stop_word_with_punctuation :
  extract_keywords (lit "what?") = [lit "what"] /\
  extract_keywords (lit "what") = [] /\
  extract_keywords (lit "How long do returns take?") = [lit "returns"; lit "take"].
Proof. repeat split; vm_compute; reflexivity. Qed.

(** ** Retriever *)

Section InsertionSort.

Variable similarities : list Q.

(** The order an [argsort] leaves the indices in. *)
Let ascending (i j : nat) : Prop :=
  (sim_at similarities i <= sim_at similarities j)%Q.

Lemma argsort_insert_In (i x : nat) (l : list nat) :
  In x (Insertion.argsort_insert similarities i l) <-> x = i \/ In x l.
Proof.
  induction l as [|j l IH]; simpl.
  - intuition congruence.
  - destruct (Qle_bool _ _); simpl; [intuition congruence|].
    rewrite IH. intuition congruence.
Qed.

Lemma argsort_insert_perm (i : nat) (l : list nat) :
  Permutation (Insertion.argsort_insert similarities i l) (i :: l).
Proof.
  induction l as [|j l IH]; simpl; [reflexivity|].
  destruct (Qle_bool _ _); [reflexivity|].
  rewrite IH. apply perm_swap.
Qed.

Lemma argsort_insert_sorted (i : nat) (l : list nat) :
  StronglySorted ascending l ->
  StronglySorted ascending (Insertion.argsort_insert similarities i l).
Proof.
  intros Hs. induction Hs as [|j l Hs IH Hj]; simpl.
  - repeat constructor.
  - destruct (Qle_bool (sim_at similarities i) (sim_at similarities j)) eqn:E.
    + apply Qle_bool_iff in E.
      constructor; [constructor; assumption|].
      constructor; [exact E|].
      rewrite Forall_forall in *. intros x Hx.
      unfold ascending in *. specialize (Hj x Hx). lra.
    + assert (ascending j i) as Haji.
      { unfold ascending. apply Qlt_le_weak, Qnot_le_lt.
        intros H. apply Qle_bool_iff in H. congruence. }
      constructor; [exact IH|].
      rewrite Forall_forall in *. intros x Hx.
      apply argsort_insert_In in Hx. destruct Hx as [-> | Hx]; auto.
Qed.

Lemma insertion_argsort_sorted :
  StronglySorted ascending (Insertion.argsort similarities).
Proof.
  unfold Insertion.argsort.
  induction (seq 0 (length similarities)) as [|i l IH]; simpl.
  - constructor.
  - apply argsort_insert_sorted, IH.
Qed.

Lemma insertion_argsort_perm :
  Permutation (Insertion.argsort similarities) (seq 0 (length similarities)).
Proof.
  unfold Insertion.argsort.
  induction (seq 0 (length similarities)) as [|i l IH]; simpl.
  - reflexivity.
  - rewrite argsort_insert_perm. now constructor.
Qed.

End InsertionSort.

(** The insertion sort is an [argsort]. *)
#[export] Instance insertion_numpy : Numpy := {|
  argsort := Insertion.argsort;
  argsort_permutation := insertion_argsort_perm;
  argsort_ascending := insertion_argsort_sorted
|}.

Section Ranking.

Context `{Numpy}.

Variable similarities : list Q.

Lemma StronglySorted_weaken {A} (R S : A -> A -> Prop) (l : list A) :
  (forall x y, R x y -> S x y) -> StronglySorted R l -> StronglySorted S l.
Proof.
  intros HRS. induction 1 as [|x l Hs IH Hx]; constructor; [exact IH|].
  eapply Forall_impl; [|exact Hx]. intros y. apply HRS.
Qed.

Lemma ranked_before_any (i j : nat) :
  (sim_at similarities j <= sim_at similarities i)%Q <->
  ranked_before any_order similarities i j.
Proof.
  unfold ranked_before, any_order. split.
  - intros Hle. apply Qle_lt_or_eq in Hle.
    destruct Hle as [Hlt | Heq]; [now left | right].
    split; [now symmetry | exact I].
  - intros [Hlt | [Heq _]]; lra.
Qed.

Lemma argsort_sorted :
  StronglySorted (fun i j => ranked_before any_order similarities j i)
                 (argsort similarities).
Proof.
  apply (StronglySorted_weaken _ _ _
           (fun i j => proj1 (ranked_before_any j i))).
  apply argsort_ascending.
Qed.

Lemma argsort_perm :
  Permutation (argsort similarities) (seq 0 (length similarities)).
Proof. apply argsort_permutation. Qed.

Lemma argsort_length : length (argsort similarities) = length similarities.
Proof.
  rewrite (Permutation_length argsort_perm). apply length_seq.
Qed.

Lemma argsort_In (i : nat) :
  In i (argsort similarities) <-> (i < length similarities)%nat.
Proof.
  split; intros Hi.
  - apply (Permutation_in _ argsort_perm) in Hi. apply in_seq in Hi. lia.
  - apply (Permutation_in _ (Permutation_sym argsort_perm)).
    apply in_seq. lia.
Qed.

Lemma argsort_NoDup : NoDup (argsort similarities).
Proof.
  apply (Permutation_NoDup (Permutation_sym argsort_perm)).
  apply seq_NoDup.
Qed.

End Ranking.

Lemma StronglySorted_app_inv {A} (R : A -> A -> Prop) (l1 l2 : list A) :
  StronglySorted R (l1 ++ l2) ->
  StronglySorted R l1 /\ StronglySorted R l2 /\
  forall x y, In x l1 -> In y l2 -> R x y.
Proof.
  induction l1 as [|a l1 IH]; simpl; intros H.
  - repeat split; [constructor | exact H | contradiction].
  - inversion H as [|? ? Hs Ha]; subst.
    destruct (IH Hs) as [H1 [H2 H12]].
    rewrite Forall_app in Ha. destruct Ha as [Ha1 Ha2].
    repeat split; [constructor; assumption | exact H2 |].
    intros x y [<- | Hx] Hy; [|auto].
    rewrite Forall_forall in Ha2. auto.
Qed.

Lemma StronglySorted_snoc {A} (R : A -> A -> Prop) (l : list A) (a : A) :
  StronglySorted R l -> Forall (fun x => R x a) l ->
  StronglySorted R (l ++ [a]).
Proof.
  induction 1 as [|x l Hs IH Hx]; simpl; intros Ha.
  - repeat constructor.
  - inversion Ha; subst. constructor; [auto|].
    apply Forall_app. split; [exact Hx | repeat constructor; assumption].
Qed.

Lemma StronglySorted_rev {A} (R : A -> A -> Prop) (l : list A) :
  StronglySorted R l -> StronglySorted (fun x y => R y x) (rev l).
Proof.
  induction 1 as [|x l Hs IH Hx]; simpl; [constructor|].
  apply StronglySorted_snoc; [exact IH|].
  apply Forall_forall. intros y Hy. apply in_rev in Hy.
  rewrite Forall_forall in Hx. auto.
Qed.

(** For a positive [k] the slice [l[-k:]] is the last [min k n]
    elements. *)
Lemma slice_from_last {A} (k : Z) (l : list A) :
  0 < k ->
  slice_from (- k) l =
  skipn (length l - Z.to_nat (Z.min k (Z.of_nat (length l)))) l.
Proof.
  intros Hk. unfold slice_from.
  destruct (Z.ltb_spec (- k) 0); [|lia].
  f_equal. lia.
Qed.

(** For [k <= 0] the slice [l[-k:]] drops the first [-k] elements, none
    of them when [k] is 0. *)
Lemma slice_from_nonpositive {A} (k : Z) (l : list A) :
  k <= 0 -> slice_from (- k) l = skipn (Z.to_nat (- k)) l.
Proof.
  intros Hk. unfold slice_from.
  destruct (Z.ltb_spec (- k) 0); [lia|].
  destruct (Z.le_gt_cases (- k) (Z.of_nat (length l))).
  - rewrite Z.min_l by assumption. reflexivity.
  - rewrite Z.min_r by lia. rewrite Nat2Z.id.
    rewrite !skipn_all2; [reflexivity | lia | lia].
Qed.

Lemma top_k_indices_spec `{Numpy} (similarities : list Q) (k : Z) :
  0 < k ->
  let n := length similarities in
  let idxs := top_k_indices similarities k in
  Z.of_nat (length idxs) = Z.min k (Z.of_nat n) /\
  StronglySorted (ranked_before any_order similarities) idxs /\
  (forall i, In i idxs -> (i < n)%nat) /\
  (forall i j, In i idxs -> (j < n)%nat -> ~ In j idxs ->
               ranked_before any_order similarities i j) /\
  NoDup idxs.
Proof.
  intros Hk n idxs. subst idxs. unfold top_k_indices.
  rewrite slice_from_last by assumption.
  rewrite argsort_length. fold n.
  set (m := (n - Z.to_nat (Z.min k (Z.of_nat n)))%nat).
  pose proof (argsort_sorted similarities) as Hs.
  pose proof (argsort_NoDup similarities) as Hnd.
  rewrite <- (firstn_skipn m (argsort similarities)) in Hs, Hnd.
  apply StronglySorted_app_inv in Hs. destruct Hs as [_ [Hlast Hsplit]].
  apply NoDup_app_remove_l in Hnd.
  split; [|split; [|split; [|split]]].
  - rewrite length_rev, length_skipn, argsort_length. fold n. lia.
  - apply (StronglySorted_rev _ _ Hlast).
  - intros i Hi. apply in_rev in Hi.
    apply (argsort_In similarities).
    rewrite <- (firstn_skipn m (argsort similarities)).
    apply in_or_app. now right.
  - intros i j Hi Hj Hnot. apply in_rev in Hi.
    apply Hsplit; [|exact Hi].
    apply (argsort_In similarities) in Hj.
    rewrite <- (firstn_skipn m (argsort similarities)) in Hj.
    apply in_app_or in Hj. destruct Hj as [Hj | Hj]; [exact Hj|].
    exfalso. apply Hnot. apply -> in_rev. exact Hj.
  - apply NoDup_rev, Hnd.
Qed.

Lemma collect_results_ok (all_passages : list Passage) (similarities : list Q)
    (idxs : list nat) (acc : list Retrieved) :
  (forall i, In i idxs -> (i < length all_passages)%nat) ->
  exists results,
    collect_results all_passages similarities idxs acc = Ok (acc ++ results) /\
    Forall2 (fun i r => nth_error all_passages i = Some (passage r) /\
                        score r = sim_at similarities i) idxs results.
Proof.
  revert acc. induction idxs as [|i idxs IH]; intros acc Hin; simpl.
  - exists []. rewrite app_nil_r. split; [reflexivity | constructor].
  - destruct (nth_error all_passages i) as [p|] eqn:Hp.
    + destruct (IH (acc ++ [mkRetrieved p (sim_at similarities i)]))
        as [rs [E F]]; [intros; apply Hin; now right|].
      exists (mkRetrieved p (sim_at similarities i) :: rs).
      rewrite E, <- app_assoc. split; [reflexivity|].
      constructor; [split; [exact Hp | reflexivity] | exact F].
    + apply nth_error_None in Hp.
      specialize (Hin i (or_introl eq_refl)). lia.
Qed.

(** What [index_passages] leaves in a system that had passages. *)
Lemma index_passages_fitted `{Sklearn} (sys sys' : RAGSystem) :
  passages sys <> [] -> index_passages sys = Ok sys' ->
  exists v vectors,
    vectorizer sys' = Some v /\ passage_vectors sys' = Some vectors /\
    passages sys' = passages sys /\
    length vectors = length (passages sys).
Proof.
  intros Hne. unfold index_passages, fit_transform.
  apply truthy_true in Hne. rewrite Hne. simpl.
  destruct (fit _) as [v|]; [|discriminate].
  intros E. injection E as <-. simpl.
  eexists. eexists. repeat split. now rewrite !length_map.
Qed.

(** C1, as the code has it: for a fitted index and [k >= 1], [retrieve]
    returns [min k n] distinct passages with the highest cosine
    similarities to the query (all of them if fewer than [k] exist),
    ordered by descending score; among passages of equal score neither
    the order nor, for the last place, the choice is fixed: both are
    whatever [np.argsort] leaves. *)
Theorem retrieve_top_k `{Sklearn} `{Numpy} (sys sys' : RAGSystem) (query : str)
    (k : Z) :
  passages sys <> [] -> index_passages sys = Ok sys' -> 0 < k ->
  exists results,
    retrieve sys' query k = Ok results /\
    length (similarities_of sys' query) = length (passages sys') /\
    is_top_k any_order (passages sys') (similarities_of sys' query) k results.
Proof.
  intros Hne Hidx Hk.
  destruct (index_passages_fitted sys sys' Hne Hidx) as [v [vs [Hv [Hvs [Hp Hlen]]]]].
  unfold similarities_of, retrieve. rewrite Hv, Hvs.
  set (sims := cosine_similarities (transform v (preprocess_text query)) vs).
  assert (length sims = length (passages sys')) as Hn.
  { unfold sims, cosine_similarities. rewrite length_map. congruence. }
  destruct (top_k_indices_spec sims k Hk) as [Hl [Hs [Hb [Htop Hnd]]]].
  destruct (collect_results_ok (passages sys') sims (top_k_indices sims k) [])
    as [rs [E F]].
  { intros i Hi. rewrite <- Hn. auto. }
  exists rs. split; [exact E|]. split; [exact Hn|].
  exists (top_k_indices sims k). rewrite <- Hn.
  split; [exact F|]. split; [exact Hl|]. split; [exact Hs|].
  split; [exact Htop | exact Hnd].
Qed.

Lemma demo_index : index_passages demo = Ok demo_indexed.
Proof. vm_compute. reflexivity. Qed.

Lemma demo_passages :
  passages demo_indexed = [returns_passage; warranty_passage].
Proof. vm_compute. reflexivity. Qed.

Lemma retrieve_top_k_witness :
  (passages demo <> [] /\ index_passages demo = Ok demo_indexed /\ 0 < 1) /\
  exists results,
    retrieve demo_indexed (lit "How long is the warranty?") 1 = Ok results /\
    length (similarities_of demo_indexed (lit "How long is the warranty?"))
    = length (passages demo_indexed) /\
    is_top_k any_order (passages demo_indexed)
      (similarities_of demo_indexed (lit "How long is the warranty?"))
      1 results.
Proof.
  assert (passages demo <> []) as Hne by (vm_compute; discriminate).
  split; [split; [exact Hne | split; [exact demo_index | lia]]|].
  apply (retrieve_top_k demo demo_indexed _ 1 Hne demo_index). lia.
Defined.

(** C1, as the specification words it, fails: no word of the query
    [shipping] occurs in the collection, both passages have similarity
    0, and asked for one passage [retrieve], run on the insertion sort
    (which orders the two equal similarities as numpy does, index 0 then
    index 1), returns the second passage, so the result is not the top 1
    under the rule that the lower index wins a tie. *)
Lemma retrieve_tie_lower_index_loses :
  retrieve demo_indexed (lit "shipping") 1
  = Ok [mkRetrieved warranty_passage 0] /\
  similarities_of demo_indexed (lit "shipping") = [0%Q; 0%Q] /\
  ~ is_top_k lower_index_first (passages demo_indexed)
      (similarities_of demo_indexed (lit "shipping")) 1
      [mkRetrieved warranty_passage 0].
Proof.
  assert (similarities_of demo_indexed (lit "shipping") = [0%Q; 0%Q]) as Hs
    by (vm_compute; reflexivity).
  split; [vm_compute; reflexivity|]. split; [exact Hs|].
  rewrite Hs, demo_passages.
  intros [idxs [F [_ [_ [Htop _]]]]].
  inversion F as [|i r idxs' rs [Hp _] F']; subst.
  inversion F'; subst. simpl in Hp.
  assert (i = 1%nat) as ->.
  { destruct i as [|[|i]]; [|reflexivity|].
    - vm_compute in Hp. discriminate.
    - simpl in Hp. destruct i; discriminate. }
  destruct (Htop 1%nat 0%nat) as [Hlt | [_ Hlt]].
  - now left.
  - simpl. lia.
  - simpl. intros [E | []]. discriminate.
  - vm_compute in Hlt. discriminate.
  - unfold lower_index_first in Hlt. lia.
Qed.

(** With [k = 0] nothing is cut: the ranking of all the passages. *)
Lemma top_k_indices_zero `{Numpy} (similarities : list Q) :
  top_k_indices similarities 0 = rev (argsort similarities) /\
  length (top_k_indices similarities 0) = length similarities.
Proof.
  unfold top_k_indices. rewrite (slice_from_nonpositive 0) by lia.
  simpl. split; [reflexivity|]. rewrite length_rev. apply argsort_length.
Qed.

(** C2, where the code departs from it: with [k = 0] the slice [[-0:]]
    is the whole array and [retrieve] returns every passage; with
    [k = -1] it returns all but the least similar one. *)
Theorem retrieve_nonpositive_k :
  retrieve demo_indexed (lit "How long is the warranty?") 0
  = Ok [mkRetrieved warranty_passage 2; mkRetrieved returns_passage 0] /\
  retrieve demo_indexed (lit "How long is the warranty?") (-1)
  = Ok [mkRetrieved warranty_passage 2].
Proof. split; vm_compute; reflexivity. Qed.

(** C3, where the code departs from it: with no document ingested
    [index_passages] returns without fitting the vectorizer, and
    [retrieve] then raises [NotFittedError] whatever the query and [k]. *)
Theorem retrieve_nothing_indexed `{Sklearn} `{Numpy} (m : Z) (query : str)
    (k : Z) :
  let sys := ingest_documents [] (new_system m) in
  passages sys = [] /\
  index_passages sys = Ok sys /\
  retrieve sys query k = Raise NotFittedError.
Proof. repeat split. Qed.

(** The segmenter with a maximum of 6 words: the first sentence alone
    has 8 words and is a passage of its own, the two short ones that
    follow share a passage. *)
Example create_passages_example :
  create_passages 6
    (lit "One two three four five six seven eight. Nine ten. Eleven twelve.")
    (lit "numbers.txt")
  = [lit "One two three four five six seven eight.";
     lit "Nine ten. Eleven twelve."].
Proof. vm_compute. reflexivity. Qed.

(** The two stages together on the small collection: the sentence of
    the warranty file answers the warranty question. *)
Example answer_query_example :
  answer_query demo_indexed (lit "How long is the warranty?") 3
  = Ok (lit "The warranty lasts two years.", [lit "warranty.txt"]).
Proof. vm_compute. reflexivity. Qed.

(** * Further properties of the pipeline *)

(** ** Stripping *)

Lemma lstrip_head (chars : ascii -> bool) (s : str) :
  match lstrip chars s with [] => True | c :: _ => chars c = false end.
Proof.
  induction s as [|c s IH]; simpl; [exact I|].
  destruct (chars c) eqn:E; [exact IH | exact E].
Qed.

Lemma lstrip_suffix (chars : ascii -> bool) (s : str) :
  exists pre, s = pre ++ lstrip chars s.
Proof.
  induction s as [|c s [pre IH]]; simpl; [now exists []|].
  destruct (chars c); [|now exists []].
  exists (c :: pre). simpl. now rewrite <- IH.
Qed.

Lemma lstrip_fixed (chars : ascii -> bool) (s : str) :
  match s with [] => True | c :: _ => chars c = false end ->
  lstrip chars s = s.
Proof. destruct s as [|c s]; simpl; [reflexivity | now intros ->]. Qed.

Lemma strip_chars_trimmed (chars : ascii -> bool) (s : str) :
  trimmed chars (strip_chars chars s).
Proof.
  unfold trimmed, strip_chars, rstrip. rewrite rev_involutive.
  split; [|apply lstrip_head].
  pose proof (lstrip_head chars s) as Hh.
  destruct (lstrip_suffix chars (rev (lstrip chars s))) as [pre E].
  apply (f_equal (@rev ascii)) in E.
  rewrite rev_involutive, rev_app_distr in E.
  destruct (rev (lstrip chars (rev (lstrip chars s)))) as [|c r]; [exact I|].
  rewrite E in Hh. exact Hh.
Qed.

Lemma trimmed_strip_chars (chars : ascii -> bool) (s : str) :
  trimmed chars s -> strip_chars chars s = s.
Proof.
  intros [Hh Hl]. unfold strip_chars, rstrip.
  rewrite (lstrip_fixed chars s Hh), (lstrip_fixed chars (rev s) Hl).
  apply rev_involutive.
Qed.

Lemma ends_with_terminator_app (s : str) :
  ends_with_terminator (s ++ lit ".") = true.
Proof.
  unfold ends_with_terminator, last_char. rewrite rev_app_distr. reflexivity.
Qed.

Lemma terminator_not_space (c : ascii) :
  is_terminator c = true -> isspace c = false.
Proof.
  each_char c; vm_compute; intros H; (reflexivity || discriminate H).
Qed.

Lemma ends_with_terminator_last (s : str) :
  ends_with_terminator s = true ->
  s <> [] /\ match rev s with [] => True | c :: _ => isspace c = false end.
Proof.
  unfold ends_with_terminator, last_char.
  destruct (rev s) as [|c r] eqn:E; [discriminate|].
  intros H. split; [|now apply terminator_not_space].
  intros ->. discriminate.
Qed.

Lemma terminated_trimmed (s : str) :
  s <> [] -> trimmed isspace s ->
  terminated s <> [] /\ ends_with_terminator (terminated s) = true /\
  trimmed isspace (terminated s).
Proof.
  intros Hne [Hh Hl]. unfold terminated.
  destruct (ends_with_terminator s) eqn:E.
  - repeat split; assumption.
  - split; [destruct s; discriminate|].
    split; [apply ends_with_terminator_app|].
    split.
    + destruct s; [congruence | exact Hh].
    + rewrite rev_app_distr. reflexivity.
Qed.

Lemma sentences_wellformed (text : str) :
  Forall (fun s => s <> [] /\ ends_with_terminator s = true /\ strip s = s)
         (split_into_sentences text).
Proof.
  unfold split_into_sentences. rewrite clean_sentences_from. simpl.
  apply Forall_forall. intros s Hs.
  apply in_map_iff in Hs. destruct Hs as [t [<- Ht]].
  apply filter_In in Ht. destruct Ht as [Ht Hk].
  apply in_map_iff in Ht. destruct Ht as [f [<- _]].
  assert (strip f <> []) as Hne.
  { unfold kept in Hk. apply andb_true_iff in Hk. destruct Hk as [Hk _].
    intros E. rewrite E in Hk. discriminate. }
  destruct (terminated_trimmed (strip f) Hne (strip_chars_trimmed isspace f))
    as [H1 [H2 H3]].
  repeat split; [exact H1 | exact H2 |].
  apply trimmed_strip_chars. exact H3.
Qed.

(** X1: every sentence the splitter returns is non-empty, ends with one
    of [.], [!], [?] and has no whitespace at either end. *)
Theorem split_into_sentences_wellformed (text : str) :
  Forall (fun s => s <> [] /\ ends_with_terminator s = true /\ strip s = s)
         (split_into_sentences text).
Proof. exact (sentences_wellformed text). Qed.

Lemma lstrip_prefix (chars : ascii -> bool) (s : str) :
  exists pre, s = pre ++ lstrip chars s /\ Forall (fun c => chars c = true) pre.
Proof.
  induction s as [|c s [pre [IH Hpre]]]; simpl; [exists []; now split|].
  destruct (chars c) eqn:E; [|exists []; now split].
  exists (c :: pre). simpl. split; [now rewrite <- IH | now constructor].
Qed.

Lemma split_spaces (s : str) :
  Forall (fun c => isspace c = true) s -> split s = [].
Proof.
  induction 1 as [|c s Hc _ IH]; [reflexivity|].
  now rewrite split_cons_space.
Qed.

Lemma split_app_spaces (a sp : str) :
  Forall (fun c => isspace c = true) sp -> split (a ++ sp) = split a.
Proof.
  intros H. destruct H as [|c sp Hc Hsp]; [now rewrite app_nil_r|].
  rewrite split_app_space by exact Hc.
  rewrite (split_spaces sp Hsp). apply app_nil_r.
Qed.

Lemma split_spaces_app (sp a : str) :
  Forall (fun c => isspace c = true) sp -> split (sp ++ a) = split a.
Proof.
  induction 1 as [|c sp Hc _ IH]; [reflexivity|].
  simpl app. now rewrite split_cons_space.
Qed.

(** Stripping whitespace does not change the words. *)
Lemma split_strip (s : str) : split (strip s) = split s.
Proof.
  unfold strip, strip_chars, rstrip.
  destruct (lstrip_prefix isspace s) as [pre [E Hpre]].
  destruct (lstrip_prefix isspace (rev (lstrip isspace s))) as [post [E' Hpost]].
  apply (f_equal (@rev ascii)) in E'.
  rewrite rev_involutive, rev_app_distr in E'.
  rewrite E at 2. rewrite split_spaces_app by exact Hpre.
  set (r := rev (lstrip isspace (rev (lstrip isspace s)))) in *.
  rewrite E'. rewrite split_app_spaces; [reflexivity|].
  apply Forall_rev. exact Hpost.
Qed.

Lemma word_count_strip (s : str) : word_count (strip s) = word_count s.
Proof. unfold word_count. now rewrite split_strip. Qed.

Lemma re_split_no_terminator (cur s : str) :
  Forall (fun c => is_terminator c = false) s ->
  re_split_scan (InText false) cur s = [rev cur ++ s].
Proof.
  intros H. revert cur. induction H as [|c s Hc _ IH]; intros cur; simpl.
  - now rewrite app_nil_r.
  - rewrite Hc. destruct (isspace c); rewrite IH; simpl;
      now rewrite <- app_assoc.
Qed.

Lemma strip_chars_incl (chars : ascii -> bool) (s : str) (c : ascii) :
  In c (strip_chars chars s) -> In c s.
Proof.
  unfold strip_chars, rstrip. intros H. apply in_rev in H.
  destruct (lstrip_prefix chars (rev (lstrip chars s))) as [p1 [E1 _]].
  destruct (lstrip_prefix chars s) as [p2 [E2 _]].
  rewrite E2. apply in_or_app. right.
  apply in_rev. rewrite E1. apply in_or_app. now right.
Qed.

Lemma no_terminator_end (s : str) :
  Forall (fun c => is_terminator c = false) s -> ends_with_terminator s = false.
Proof.
  intros H. unfold ends_with_terminator, last_char.
  destruct (rev s) as [|c r] eqn:E; [reflexivity|].
  rewrite Forall_forall in H. apply H. apply in_rev. rewrite E. now left.
Qed.

(** X2: a text without any of [.], [!], [?] is one fragment: it is
    returned as a single sentence, trimmed and with a full stop added,
    when it has more than 5 words, and dropped otherwise. *)
Theorem split_into_sentences_no_terminator (text : str) :
  Forall (fun c => is_terminator c = false) text ->
  split_into_sentences text =
  if 5 <? word_count text then [strip text ++ lit "."] else [].
Proof.
  intros H. unfold split_into_sentences, re_split_sentences.
  rewrite re_split_no_terminator by exact H. simpl.
  rewrite clean_sentence_kept. unfold kept, terminated.
  assert (ends_with_terminator (strip text) = false) as ->.
  { apply no_terminator_end. rewrite Forall_forall in *.
    intros c Hc. apply H. eapply strip_chars_incl. exact Hc. }
  rewrite word_count_strip. simpl.
  destruct (5 <? word_count text) eqn:E; [|now rewrite andb_false_r].
  assert (str_eqb (strip text) [] = false) as ->; [|reflexivity].
  destruct (str_eqb (strip text) []) eqn:Es; [|reflexivity].
  apply str_eqb_eq in Es. apply Z.ltb_lt in E.
  rewrite <- word_count_strip, Es in E. discriminate.
Qed.

Lemma split_into_sentences_no_terminator_witness :
  Forall (fun c => is_terminator c = false) (lit "Maintenance and Care:") /\
  split_into_sentences (lit "Maintenance and Care:") =
  if 5 <? word_count (lit "Maintenance and Care:")
  then [strip (lit "Maintenance and Care:") ++ lit "."] else [].
Proof.
  assert (Forall (fun c => is_terminator c = false)
                 (lit "Maintenance and Care:")) as H
    by (repeat constructor).
  split; [exact H|].
  apply (split_into_sentences_no_terminator _ H).
Defined.

(** ** More on the passage segmenter *)

Lemma join_nonempty (sep : str) (l : list str) :
  l <> [] -> Forall (fun s => s <> []) l -> join sep l <> [].
Proof.
  intros Hne H. destruct l as [|x l]; [congruence|].
  inversion H as [|? ? Hx _]; subst.
  destruct l; simpl; [exact Hx|].
  destruct x; [congruence | discriminate].
Qed.

Lemma segment_step_nonempty (m : Z) (st : segmenter) (s : str) :
  s <> [] ->
  Forall (fun p => p <> []) (seg_passages st) ->
  Forall (fun p => p <> []) (current_passage st) ->
  Forall (fun p => p <> []) (seg_passages (add_sentence m st s)) /\
  Forall (fun p => p <> []) (current_passage (add_sentence m st s)).
Proof.
  intros Hs Hp Hc. unfold add_sentence.
  destruct ((m <? current_word_count st + word_count s)
            && truthy (current_passage st)) eqn:E; simpl.
  - apply andb_true_iff in E. destruct E as [_ E]. apply truthy_true in E.
    split; [|repeat constructor; exact Hs].
    apply Forall_app. split; [exact Hp|].
    constructor; [|constructor]. now apply join_nonempty.
  - split; [exact Hp|]. apply Forall_app. split; [exact Hc|].
    repeat constructor; exact Hs.
Qed.

Lemma segment_fold_nonempty (m : Z) (l : list str) (st : segmenter) :
  Forall (fun s => s <> []) l ->
  Forall (fun p => p <> []) (seg_passages st) ->
  Forall (fun p => p <> []) (current_passage st) ->
  Forall (fun p => p <> []) (flush (fold_left (add_sentence m) l st)).
Proof.
  intros Hl. revert st. induction Hl as [|s l Hs _ IH]; intros st Hp Hc; simpl.
  - unfold flush. destruct (truthy (current_passage st)) eqn:E; [|exact Hp].
    apply Forall_app. split; [exact Hp|].
    constructor; [|constructor].
    apply join_nonempty; [now apply truthy_true | exact Hc].
  - destruct (segment_step_nonempty m st s Hs Hp Hc) as [Hp' Hc'].
    now apply IH.
Qed.

Lemma segment_fold_flush (m : Z) (l : list str) (st : segmenter) :
  l <> [] -> flush (fold_left (add_sentence m) l st) <> [].
Proof.
  revert st. induction l as [|s l IH]; intros st Hne; [congruence|].
  simpl. destruct l as [|s' l].
  - simpl. apply flush_add_sentence.
  - apply IH. discriminate.
Qed.

Lemma create_passages_nonempty_aux (max_words : Z) (text filename : str) :
  Forall (fun p => p <> []) (create_passages max_words text filename) /\
  (create_passages max_words text filename = [] <->
   split_into_sentences text = []).
Proof.
  unfold create_passages, segment. split.
  - apply segment_fold_nonempty; [|constructor|constructor].
    eapply Forall_impl; [|apply sentences_wellformed]. simpl. tauto.
  - split.
    + intros E. destruct (split_into_sentences text) as [|s l] eqn:Es;
        [reflexivity|].
      exfalso. revert E. apply segment_fold_flush. discriminate.
    + intros ->. reflexivity.
Qed.

(** X3: no passage of the segmenter is the empty string, and the
    segmenter returns no passage only when the splitter returns no
    sentence. *)
Theorem create_passages_nonempty (max_words : Z) (text filename : str) :
  Forall (fun p => p <> []) (create_passages max_words text filename) /\
  (create_passages max_words text filename = [] <->
   split_into_sentences text = []).
Proof. exact (create_passages_nonempty_aux max_words text filename). Qed.

Lemma word_count_nonneg (s : str) : 0 <= word_count s.
Proof. unfold word_count. lia. Qed.

Lemma total_words_nonneg (l : list str) :
  0 <= fold_right Z.add 0 (map word_count l).
Proof.
  induction l as [|s l IH]; simpl; [lia|].
  pose proof (word_count_nonneg s). lia.
Qed.

Lemma segment_fold_fits (m : Z) (l : list str) (st : segmenter) :
  seg_passages st = [] ->
  current_word_count st + fold_right Z.add 0 (map word_count l) <= m ->
  fold_left (add_sentence m) l st =
  mkSegmenter [] (current_passage st ++ l)
              (current_word_count st + fold_right Z.add 0 (map word_count l)).
Proof.
  revert st. induction l as [|s l IH]; intros st Hp Hfit; simpl in *.
  - rewrite app_nil_r, Z.add_0_r. destruct st; simpl in *. now subst.
  - pose proof (total_words_nonneg l) as Hl.
    assert ((m <? current_word_count st + word_count s) = false) as E
      by (apply Z.ltb_ge; lia).
    unfold add_sentence at 2. rewrite E. simpl.
    rewrite IH; simpl; [|exact Hp | lia].
    rewrite <- app_assoc, Z.add_assoc. reflexivity.
Qed.

(** X4: when the sentences of a text have together at most
    [max_words_per_passage] words, the text is a single passage: its
    sentences joined by single spaces. *)
Theorem create_passages_single (max_words : Z) (text filename : str) :
  split_into_sentences text <> [] ->
  fold_right Z.add 0 (map word_count (split_into_sentences text)) <= max_words ->
  create_passages max_words text filename =
  [join space (split_into_sentences text)].
Proof.
  intros Hne Hfit. unfold create_passages, segment.
  rewrite segment_fold_fits; [|reflexivity | simpl; exact Hfit].
  unfold flush. simpl.
  destruct (split_into_sentences text); [congruence | reflexivity].
Qed.

Lemma create_passages_single_witness :
  let text := lit "Wash by hand. Dry with a cloth." in
  (split_into_sentences text <> [] /\
   fold_right Z.add 0 (map word_count (split_into_sentences text)) <= 120) /\
  create_passages 120 text (lit "care.txt") =
  [join space (split_into_sentences text)].
Proof.
  intros text.
  assert (split_into_sentences text <> []) as H1 by (vm_compute; discriminate).
  assert (fold_right Z.add 0 (map word_count (split_into_sentences text)) <= 120)
    as H2 by (vm_compute; discriminate).
  split; [split; assumption|].
  apply (create_passages_single 120 text (lit "care.txt") H1 H2).
Defined.

Lemma segment_fold_isolated (m : Z) (l : list str) (st : segmenter) :
  Forall (fun s => m < word_count s) l ->
  0 <= current_word_count st ->
  (current_passage st = [] \/ exists s, current_passage st = [s]) ->
  flush (fold_left (add_sentence m) l st) = flush st ++ l.
Proof.
  intros Hl. revert st.
  induction Hl as [|s l Hs _ IH]; intros st Hc Hcur; simpl.
  - now rewrite app_nil_r.
  - pose proof (word_count_nonneg s) as Hw.
    rewrite IH.
    + unfold add_sentence, flush.
      destruct Hcur as [E | [s0 E]]; rewrite E; simpl.
      * rewrite andb_false_r. simpl. now rewrite <- app_assoc.
      * assert ((m <? current_word_count st + word_count s) = true) as ->
          by (apply Z.ltb_lt; lia).
        simpl. now rewrite <- !app_assoc.
    + unfold add_sentence.
      destruct ((m <? current_word_count st + word_count s)
                && truthy (current_passage st)); simpl; lia.
    + unfold add_sentence.
      destruct Hcur as [E | [s0 E]]; rewrite E; simpl.
      * rewrite andb_false_r. simpl. right. eauto.
      * assert ((m <? current_word_count st + word_count s) = true) as ->
          by (apply Z.ltb_lt; lia).
        simpl. right. eauto.
Qed.

(** X5: when every sentence of a text alone has more than
    [max_words_per_passage] words, each sentence is a passage of its
    own: the passages are the sentences. *)
Theorem create_passages_isolated (max_words : Z) (text filename : str) :
  Forall (fun s => max_words < word_count s) (split_into_sentences text) ->
  create_passages max_words text filename = split_into_sentences text.
Proof.
  intros H. unfold create_passages, segment.
  rewrite segment_fold_isolated; [reflexivity | exact H | simpl; lia | now left].
Qed.

Lemma create_passages_isolated_witness :
  let text := lit "Wash by hand. Dry with a cloth." in
  Forall (fun s => 2 < word_count s) (split_into_sentences text) /\
  create_passages 2 text (lit "care.txt") = split_into_sentences text.
Proof.
  intros text.
  assert (Forall (fun s => 2 < word_count s) (split_into_sentences text)) as H.
  { vm_compute. repeat constructor. }
  split; [exact H|].
  apply (create_passages_isolated 2 text (lit "care.txt") H).
Defined.

(** ** Ingestion *)

Lemma ingest_file_fields `{Sklearn} (sys : RAGSystem) (file : str * str) :
  max_words_per_passage (ingest_file sys file) = max_words_per_passage sys /\
  documents (ingest_file sys file) =
    documents sys ++ [mkDocument (fst file) (snd file)] /\
  passages (ingest_file sys file) =
    passages sys ++ passages_of_file (max_words_per_passage sys) file /\
  vectorizer (ingest_file sys file) = vectorizer sys /\
  passage_vectors (ingest_file sys file) = passage_vectors sys.
Proof. destruct file as [filename content]. repeat split. Qed.

Lemma ingest_documents_fields `{Sklearn} (files : list (str * str))
    (sys : RAGSystem) :
  max_words_per_passage (ingest_documents files sys) = max_words_per_passage sys /\
  documents (ingest_documents files sys) =
    documents sys ++ map (fun f => mkDocument (fst f) (snd f)) files /\
  passages (ingest_documents files sys) =
    passages sys ++ flat_map (passages_of_file (max_words_per_passage sys)) files /\
  vectorizer (ingest_documents files sys) = vectorizer sys /\
  passage_vectors (ingest_documents files sys) = passage_vectors sys.
Proof.
  unfold ingest_documents. revert sys.
  induction files as [|f files IH]; intros sys; simpl.
  - now rewrite !app_nil_r.
  - destruct (IH (ingest_file sys f)) as [H1 [H2 [H3 [H4 H5]]]].
    destruct (ingest_file_fields sys f) as [F1 [F2 [F3 [F4 F5]]]].
    rewrite H1, H2, H3, H4, H5, F1, F2, F3, F4, F5.
    rewrite <- !app_assoc. repeat split.
Qed.

Lemma enumerate_In {A} (l : list A) (i : nat) (x : A) :
  In (i, x) (enumerate l) -> In x l.
Proof. unfold enumerate. apply in_combine_r. Qed.

Lemma passages_of_file_In (m : Z) (file : str * str) (p : Passage) :
  In p (passages_of_file m file) ->
  source p = fst file /\
  In (text p) (create_passages m (snd file) (fst file)).
Proof.
  unfold passages_of_file. intros H.
  apply in_map_iff in H. destruct H as [[i t] [<- Hin]].
  simpl. split; [reflexivity|]. eapply enumerate_In. exact Hin.
Qed.

(** X6: after ingesting files into a new system there is one document
    per file, in order, and every passage has a non-empty text, names an
    ingested document as its source and is one of the passages the
    segmenter makes of that document. *)
Theorem ingest_documents_passages `{Sklearn} (m : Z) (files : list (str * str)) :
  let sys := ingest_documents files (new_system m) in
  documents sys = map (fun f => mkDocument (fst f) (snd f)) files /\
  Forall (fun p =>
            text p <> [] /\
            exists d, In d (documents sys) /\
                      source p = doc_filename d /\
                      In (text p)
                         (create_passages m (doc_content d) (doc_filename d)))
         (passages sys).
Proof.
  intros sys.
  destruct (ingest_documents_fields files (new_system m)) as [_ [Hd [Hp _]]].
  fold sys in Hd, Hp. simpl in Hd, Hp. split; [exact Hd|].
  rewrite Hp, Hd. apply Forall_forall. intros p Hin.
  apply in_flat_map in Hin. destruct Hin as [f [Hf Hin]].
  apply passages_of_file_In in Hin. destruct Hin as [Hs Ht].
  split.
  - destruct (create_passages_nonempty_aux m (snd f) (fst f)) as [Hne _].
    rewrite Forall_forall in Hne. now apply Hne.
  - exists (mkDocument (fst f) (snd f)). split; [|split; assumption].
    apply in_map_iff. now exists f.
Qed.

Lemma str_of_nat_digits (i : nat) :
  Forall (fun c => isdigit c = true) (str_of_nat i).
Proof.
  unfold str_of_nat, lit. induction (Nat.to_uint i); simpl;
    constructor; (reflexivity || assumption).
Qed.

Lemma str_of_nat_inj (i j : nat) : str_of_nat i = str_of_nat j -> i = j.
Proof.
  unfold str_of_nat, lit. intros E.
  apply (f_equal string_of_list_ascii) in E.
  rewrite !string_of_list_ascii_of_string in E.
  apply (f_equal NilEmpty.uint_of_string) in E.
  rewrite !NilEmpty.usu in E. injection E as E.
  apply (f_equal Nat.of_uint) in E.
  now rewrite !Unsigned.of_to in E.
Qed.

Lemma digits_prefix (a b : str) (c d : ascii) (x y : str) :
  Forall (fun e => isdigit e = true) a ->
  Forall (fun e => isdigit e = true) b ->
  isdigit c = false -> isdigit d = false ->
  a ++ c :: x = b ++ d :: y -> a = b /\ c :: x = d :: y.
Proof.
  intros Ha. revert b. induction Ha as [|e a He _ IH]; intros b Hb Hc Hd E.
  - destruct Hb as [|e b He _]; simpl in E; [now split|].
    injection E as -> _. congruence.
  - destruct Hb as [|e' b He' Hb]; simpl in E.
    + injection E as <- _. congruence.
    + injection E as -> E. destruct (IH b Hb Hc Hd E) as [-> E'].
      now split.
Qed.

Lemma passage_id_inj (f1 f2 : str) (i j : nat) :
  f1 ++ lit "_passage_" ++ str_of_nat i = f2 ++ lit "_passage_" ++ str_of_nat j ->
  f1 = f2 /\ i = j.
Proof.
  intros E. apply (f_equal (@rev ascii)) in E.
  rewrite !rev_app_distr, <- !app_assoc in E.
  change (rev (lit "_passage_")) with ("_"%char :: lit "egassap_") in E.
  simpl app in E.
  apply digits_prefix in E;
    try (apply Forall_rev; apply str_of_nat_digits); try reflexivity.
  destruct E as [Ed Ef]. split.
  - injection Ef as Ef.
    apply (f_equal (@rev ascii)) in Ef. now rewrite !rev_involutive in Ef.
  - apply str_of_nat_inj.
    apply (f_equal (@rev ascii)) in Ed. now rewrite !rev_involutive in Ed.
Qed.

Lemma enumerate_map_fst {A B} (g : nat -> B) (l : list A) (start : nat) :
  map (fun ip : nat * A => g (fst ip)) (combine (seq start (length l)) l) =
  map g (seq start (length l)).
Proof.
  revert start. induction l as [|x l IH]; intros start; simpl; [reflexivity|].
  now rewrite IH.
Qed.

Lemma passages_of_file_ids (m : Z) (file : str * str) :
  map passage_id (passages_of_file m file) =
  map (fun i => fst file ++ lit "_passage_" ++ str_of_nat i)
      (seq 0 (length (create_passages m (snd file) (fst file)))).
Proof.
  unfold passages_of_file, enumerate. rewrite map_map. simpl.
  apply (enumerate_map_fst
           (fun i => fst file ++ lit "_passage_" ++ str_of_nat i)).
Qed.

Lemma passage_ids_NoDup (m : Z) (files : list (str * str)) :
  NoDup (map fst files) ->
  NoDup (map passage_id (flat_map (passages_of_file m) files)).
Proof.
  induction files as [|f files IH]; simpl; intros Hnd; [constructor|].
  inversion Hnd as [|? ? Hnot Hnd']; subst.
  rewrite map_app. apply NoDup_app.
  - rewrite passages_of_file_ids.
    apply NoDup_map_NoDup_ForallPairs; [|apply seq_NoDup].
    intros i j _ _ E. now apply passage_id_inj in E.
  - apply IH, Hnd'.
  - intros id H1 H2.
    rewrite passages_of_file_ids in H1.
    apply in_map_iff in H1. destruct H1 as [i [<- _]].
    rewrite flat_map_concat_map, concat_map, map_map in H2.
    apply in_concat in H2. destruct H2 as [ids [Hids Hin]].
    apply in_map_iff in Hids. destruct Hids as [g [<- Hg]].
    rewrite passages_of_file_ids in Hin.
    apply in_map_iff in Hin. destruct Hin as [j [E _]].
    apply passage_id_inj in E. destruct E as [E _].
    apply Hnot. rewrite <- E. now apply in_map.
Qed.

(** X7: when the files ingested into a new system have distinct names,
    no two passages have the same [passage_id]. *)
Theorem passage_ids_unique `{Sklearn} (m : Z) (files : list (str * str)) :
  NoDup (map fst files) ->
  NoDup (map passage_id (passages (ingest_documents files (new_system m)))).
Proof.
  intros Hnd.
  destruct (ingest_documents_fields files (new_system m)) as [_ [_ [Hp _]]].
  rewrite Hp. simpl. now apply passage_ids_NoDup.
Qed.

Lemma passage_ids_unique_witness :
  NoDup (map fst demo_files) /\
  NoDup (map passage_id (passages demo)).
Proof.
  assert (NoDup (map fst demo_files)) as H.
  { simpl. constructor; [intros [E | []]; discriminate E|].
    constructor; [intros []|constructor]. }
  split; [exact H|].
  apply (@passage_ids_unique TermCount.sklearn 120 demo_files H).
Defined.

(** ** Index and retrieval *)

(** X8: [index_passages] keeps the documents and the passages; with no
    passage it changes nothing, and otherwise it holds one vector per
    passage, in the order of the passages: the projection of the
    normalized text of each. *)
Theorem index_passages_aligned `{Sklearn} (sys sys' : RAGSystem) :
  index_passages sys = Ok sys' ->
  passages sys' = passages sys /\ documents sys' = documents sys /\
  (passages sys = [] -> sys' = sys) /\
  (passages sys <> [] ->
   exists v,
     vectorizer sys' = Some v /\
     passage_vectors sys' =
       Some (map (fun p => transform v (preprocess_text (text p)))
                 (passages sys'))).
Proof.
  unfold index_passages, fit_transform.
  destruct (passages sys) as [|p ps] eqn:Hp; simpl.
  - intros E. injection E as <-. repeat split; try assumption; congruence.
  - destruct (fit _) as [v|]; [|discriminate].
    intros E. injection E as <-. simpl.
    repeat split; [discriminate|].
    intros _. exists v. split; [reflexivity|].
    now rewrite map_map.
Qed.

Lemma index_passages_aligned_witness :
  index_passages demo = Ok demo_indexed /\
  passages demo_indexed = passages demo /\
  documents demo_indexed = documents demo /\
  (passages demo = [] -> demo_indexed = demo) /\
  (passages demo <> [] ->
   exists v,
     vectorizer demo_indexed = Some v /\
     passage_vectors demo_indexed =
       Some (map (fun p => transform v (preprocess_text (text p)))
                 (passages demo_indexed))).
Proof.
  split; [exact demo_index|].
  apply (index_passages_aligned demo demo_indexed demo_index).
Defined.

(** Whatever [k], the indices [retrieve] goes through are a suffix of
    [np.argsort], reversed. *)
Lemma top_k_indices_any `{Numpy} (similarities : list Q) (k : Z) :
  let idxs := top_k_indices similarities k in
  StronglySorted (ranked_before any_order similarities) idxs /\
  NoDup idxs /\
  (forall i, In i idxs -> (i < length similarities)%nat) /\
  (length idxs <= length similarities)%nat.
Proof.
  unfold top_k_indices, slice_from.
  set (j := Z.to_nat _).
  pose proof (argsort_sorted similarities) as Hs.
  pose proof (argsort_NoDup similarities) as Hn.
  rewrite <- (firstn_skipn j (argsort similarities)) in Hs, Hn.
  apply StronglySorted_app_inv in Hs. destruct Hs as [_ [Hs _]].
  apply NoDup_app_remove_l in Hn.
  repeat split.
  - apply (StronglySorted_rev _ _ Hs).
  - apply NoDup_rev, Hn.
  - intros i Hi. apply in_rev in Hi.
    apply (argsort_In similarities).
    rewrite <- (firstn_skipn j (argsort similarities)).
    apply in_or_app. now right.
  - rewrite length_rev, length_skipn, argsort_length. lia.
Qed.

Lemma Forall2_Forall_transfer {A B} (P : A -> B -> Prop) (Q1 : A -> Prop)
    (Q2 : B -> Prop) (la : list A) (lb : list B) :
  (forall a b, P a b -> Q1 a -> Q2 b) ->
  Forall2 P la lb -> Forall Q1 la -> Forall Q2 lb.
Proof.
  intros HPQ F. induction F as [|a b la lb Hab _ IH]; intros H; [constructor|].
  inversion H; subst. constructor; eauto.
Qed.

Lemma Forall2_sorted_transfer {A B} (P : A -> B -> Prop)
    (R : A -> A -> Prop) (S : B -> B -> Prop) (la : list A) (lb : list B) :
  (forall a b a' b', P a b -> P a' b' -> R a a' -> S b b') ->
  Forall2 P la lb -> StronglySorted R la -> StronglySorted S lb.
Proof.
  intros HPRS F. induction F as [|a b la lb Hab F IH]; intros H; [constructor|].
  inversion H as [|? ? Hs Ha]; subst. constructor; [auto|].
  apply (Forall2_Forall_transfer P (R a) (S b) la lb); [|exact F|exact Ha].
  intros a' b' Hab' HR. exact (HPRS _ _ _ _ Hab Hab' HR).
Qed.

Lemma ranked_before_le (tie : nat -> nat -> Prop) (similarities : list Q)
    (i j : nat) :
  ranked_before tie similarities i j ->
  (sim_at similarities j <= sim_at similarities i)%Q.
Proof. intros [H | [H _]]; lra. Qed.

Lemma retrieve_fitted_results `{Sklearn} `{Numpy} (sys sys' : RAGSystem)
    (query : str) (k : Z) :
  passages sys <> [] -> index_passages sys = Ok sys' ->
  exists results,
    retrieve sys' query k = Ok results /\
    (length results <= length (passages sys'))%nat /\
    Forall (fun r => In (passage r) (passages sys') /\
                     In (score r) (similarities_of sys' query)) results /\
    StronglySorted (fun a b => (score b <= score a)%Q) results.
Proof.
  intros Hne Hidx.
  destruct (index_passages_fitted sys sys' Hne Hidx) as [v [vs [Hv [Hvs [Hp Hlen]]]]].
  unfold retrieve, similarities_of. rewrite Hv, Hvs.
  set (sims := cosine_similarities (transform v (preprocess_text query)) vs).
  assert (length sims = length (passages sys')) as Hn.
  { unfold sims, cosine_similarities. rewrite length_map. congruence. }
  destruct (top_k_indices_any sims k) as [Hs [_ [Hb Hl]]].
  destruct (collect_results_ok (passages sys') sims (top_k_indices sims k) [])
    as [rs [E F]].
  { intros i Hi. rewrite <- Hn. auto. }
  exists rs. split; [exact E|]. split; [|split].
  - rewrite <- (Forall2_length F), <- Hn. exact Hl.
  - refine (Forall2_Forall_transfer _ (fun i => (i < length sims)%nat)
              _ _ _ _ F _).
    + intros i r [Hi ->] Hlt. split; [eapply nth_error_In; exact Hi|].
      apply nth_In. exact Hlt.
    + apply Forall_forall. exact Hb.
  - refine (Forall2_sorted_transfer _ _ _ _ _ _ F Hs).
    intros i r i' r' [_ ->] [_ ->]. apply ranked_before_le.
Qed.

(** X9: on a fitted index [retrieve] returns for every integer [k],
    positive or not: at most one result per passage, each an indexed
    passage with one of the similarities of the query as its score, in
    descending order of score. *)
Theorem retrieve_fitted_total `{Sklearn} `{Numpy} (sys sys' : RAGSystem)
    (query : str) (k : Z) :
  passages sys <> [] -> index_passages sys = Ok sys' ->
  exists results,
    retrieve sys' query k = Ok results /\
    (length results <= length (passages sys'))%nat /\
    Forall (fun r => In (passage r) (passages sys') /\
                     In (score r) (similarities_of sys' query)) results /\
    StronglySorted (fun a b => (score b <= score a)%Q) results.
Proof. exact (retrieve_fitted_results sys sys' query k). Qed.

Lemma retrieve_fitted_total_witness :
  (passages demo <> [] /\ index_passages demo = Ok demo_indexed) /\
  exists results,
    retrieve demo_indexed (lit "Is there a warranty?") (-1) = Ok results /\
    (length results <= length (passages demo_indexed))%nat /\
    Forall (fun r => In (passage r) (passages demo_indexed) /\
                     In (score r)
                        (similarities_of demo_indexed
                           (lit "Is there a warranty?"))) results /\
    StronglySorted (fun a b => (score b <= score a)%Q) results.
Proof.
  assert (passages demo <> []) as Hne by (vm_compute; discriminate).
  split; [split; [exact Hne | exact demo_index]|].
  apply (retrieve_fitted_total demo demo_indexed _ (-1) Hne demo_index).
Defined.

Lemma nth_error_seq {A} (l : list A) :
  map (nth_error l) (seq 0 (length l)) = map Some l.
Proof.
  induction l as [|x l IH]; [reflexivity|].
  cbn [length seq map nth_error]. f_equal.
  rewrite <- IH, <- seq_shift, map_map. reflexivity.
Qed.

Lemma map_Some_inj {A} (l1 l2 : list A) :
  map Some l1 = map Some l2 -> l1 = l2.
Proof.
  revert l2. induction l1 as [|x l1 IH]; intros [|y l2] E;
    try discriminate; [reflexivity|].
  injection E as -> E. now rewrite (IH _ E).
Qed.

Lemma Forall2_passages (all_passages : list Passage) (similarities : list Q)
    (idxs : list nat) (results : list Retrieved) :
  Forall2 (fun i r => nth_error all_passages i = Some (passage r) /\
                      score r = sim_at similarities i) idxs results ->
  map (nth_error all_passages) idxs = map Some (map passage results).
Proof.
  induction 1 as [|i r idxs rs [Hi _] _ IH]; [reflexivity|].
  simpl. now rewrite Hi, IH.
Qed.

(** X10: asked for at least as many passages as are indexed, [retrieve]
    returns every passage exactly once. *)
Theorem retrieve_all `{Sklearn} `{Numpy} (sys sys' : RAGSystem) (query : str)
    (k : Z) :
  passages sys <> [] -> index_passages sys = Ok sys' ->
  Z.of_nat (length (passages sys')) <= k ->
  exists results,
    retrieve sys' query k = Ok results /\
    Permutation (map passage results) (passages sys').
Proof.
  intros Hne Hidx Hk.
  destruct (index_passages_fitted sys sys' Hne Hidx) as [v [vs [Hv [Hvs [Hp Hlen]]]]].
  unfold retrieve. rewrite Hv, Hvs.
  set (sims := cosine_similarities (transform v (preprocess_text query)) vs).
  assert (length sims = length (passages sys')) as Hn.
  { unfold sims, cosine_similarities. rewrite length_map. congruence. }
  assert (0 < k) as Hpos.
  { rewrite Hp in Hk. destruct (passages sys); [congruence | simpl in Hk; lia]. }
  assert (top_k_indices sims k = rev (argsort sims)) as Htop.
  { unfold top_k_indices. rewrite slice_from_last by exact Hpos.
    rewrite argsort_length, Hn.
    replace (_ - _)%nat with 0%nat by lia. reflexivity. }
  destruct (collect_results_ok (passages sys') sims (top_k_indices sims k) [])
    as [rs [E F]].
  { intros i Hi. rewrite Htop in Hi. apply in_rev in Hi.
    rewrite <- Hn. now apply (argsort_In sims). }
  exists rs. split; [exact E|].
  apply Forall2_passages in F. rewrite Htop in F.
  assert (Permutation (map Some (map passage rs)) (map Some (passages sys')))
    as HP.
  { rewrite <- F, <- nth_error_seq, <- Hn. apply Permutation_map.
    rewrite <- Permutation_rev. apply argsort_perm. }
  apply Permutation_map_inv in HP. destruct HP as [l3 [E3 HP]].
  apply map_Some_inj in E3. subst l3. now symmetry.
Qed.

Lemma retrieve_all_witness :
  (passages demo <> [] /\ index_passages demo = Ok demo_indexed /\
   Z.of_nat (length (passages demo_indexed)) <= 5) /\
  exists results,
    retrieve demo_indexed (lit "Is there a warranty?") 5 = Ok results /\
    Permutation (map passage results) (passages demo_indexed).
Proof.
  assert (passages demo <> []) as Hne by (vm_compute; discriminate).
  assert (Z.of_nat (length (passages demo_indexed)) <= 5) as Hk
    by (vm_compute; discriminate).
  split; [split; [exact Hne | split; [exact demo_index | exact Hk]]|].
  apply (retrieve_all demo demo_indexed _ 5 Hne demo_index Hk).
Defined.

(** ** Keywords and relevance *)

Lemma isspace_lower_char (c : ascii) : isspace (lower_char c) = isspace c.
Proof. each_char c; reflexivity. Qed.

Lemma lower_idem (s : str) : lower (lower s) = lower s.
Proof.
  unfold lower. rewrite map_map. apply map_ext. apply lower_char_idem.
Qed.

Lemma split_lower (s : str) : split (lower s) = map lower (split s).
Proof.
  induction s as [|c s IH]; [reflexivity|].
  change (lower (c :: s)) with (lower_char c :: lower s).
  rewrite !split_cons, isspace_lower_char, IH.
  destruct (isspace c); [reflexivity|].
  destruct s as [|d s']; [reflexivity|].
  change (lower (d :: s')) with (lower_char d :: lower s').
  cbv beta iota. rewrite isspace_lower_char.
  destruct (isspace d); [reflexivity|].
  destruct (split (d :: s')); reflexivity.
Qed.

Lemma word_count_lower (s : str) : word_count (lower s) = word_count s.
Proof. unfold word_count. now rewrite split_lower, length_map. Qed.

Lemma lower_fixed (s : str) :
  Forall (fun c => lower_char c = c) s -> lower s = s.
Proof.
  induction 1 as [|c s Hc _ IH]; [reflexivity|].
  unfold lower in *. simpl. now rewrite Hc, IH.
Qed.

(** X11: every keyword is in lower case, holds no whitespace and
    neither starts nor ends with a punctuation character, and there are
    at most as many keywords as the query has words. *)
Theorem extract_keywords_shape (query : str) :
  Forall (fun kw => lower kw = kw /\ no_space kw /\
                    trimmed in_punctuation kw)
         (extract_keywords query) /\
  Z.of_nat (length (extract_keywords query)) <= word_count query.
Proof.
  unfold extract_keywords. split.
  - apply Forall_forall. intros kw Hkw.
    apply in_map_iff in Hkw. destruct Hkw as [w [<- Hw]].
    apply filter_In in Hw. destruct Hw as [Hw _].
    pose proof (split_words (lower query)) as Hws.
    rewrite Forall_forall in Hws. destruct (Hws w Hw) as [_ Hns].
    unfold no_space in *. rewrite Forall_forall in Hns.
    repeat split.
    + apply lower_fixed. apply Forall_forall. intros c Hc.
      apply strip_chars_incl in Hc.
      pose proof (split_chars _ _ _ Hw Hc) as Hq.
      apply in_map_iff in Hq. destruct Hq as [c' [<- _]].
      apply lower_char_idem.
    + apply Forall_forall. intros c Hc. apply Hns.
      eapply strip_chars_incl. exact Hc.
    + apply strip_chars_trimmed.
    + apply strip_chars_trimmed.
  - rewrite length_map. rewrite <- word_count_lower. unfold word_count.
    apply inj_le. apply filter_length_le.
Qed.

(** X12: the relevance score of a sentence lies between -2 and twice the
    number of keywords plus the number of query words plus 1. *)
Theorem score_sentence_relevance_bounds (sentence : str) (keywords : list str)
    (query_lower : str) :
  -2 <= score_sentence_relevance sentence keywords query_lower
     <= 2 * Z.of_nat (length keywords) + word_count query_lower + 1.
Proof.
  unfold score_sentence_relevance.
  rewrite (count_loop (contains (lower sentence)) 2).
  rewrite (count_loop (fun w => (3 <? Z.of_nat (length w))
                                && contains (lower sentence) w) 1).
  pose proof (filter_length_le (contains (lower sentence)) keywords) as Ha.
  pose proof (filter_length_le
                (fun w => (3 <? Z.of_nat (length w))
                          && contains (lower sentence) w)
                (split query_lower)) as Hb.
  unfold word_count, str in *.
  repeat match goal with
         | |- context [if ?c then _ else _] => destruct c
         end; lia.
Qed.

(** ** Answer generation *)

Lemma consider_sentences_eq (keywords : list str) (query_lower : str)
    (r : Retrieved) (sentences : list str) (acc : list Candidate) :
  fold_left (consider_sentence keywords query_lower r) sentences acc =
  acc ++
  map (fun s => mkCandidate s (score_sentence_relevance s keywords query_lower)
                            (source (passage r)) (score r))
      (filter (fun s => negb (word_count s <? 5) &&
                        (0 <? score_sentence_relevance s keywords query_lower))
              sentences).
Proof.
  revert acc. induction sentences as [|s l IH]; intros acc; simpl.
  - now rewrite app_nil_r.
  - rewrite IH. unfold consider_sentence.
    destruct (word_count s <? 5); simpl; [reflexivity|].
    destruct (0 <? score_sentence_relevance s keywords query_lower); simpl;
      [|reflexivity].
    now rewrite <- app_assoc.
Qed.

Lemma consider_results_eq (keywords : list str) (query_lower : str)
    (results : list Retrieved) (acc : list Candidate) :
  fold_left (consider_result keywords query_lower) results acc =
  acc ++ flat_map (candidates_of_result keywords query_lower) results.
Proof.
  revert acc. induction results as [|r l IH]; intros acc; simpl.
  - now rewrite app_nil_r.
  - rewrite IH. unfold consider_result. rewrite consider_sentences_eq.
    now rewrite <- app_assoc.
Qed.

Lemma candidate_sentences_origin (query : str) (results : list Retrieved)
    (c : Candidate) :
  In c (candidate_sentences_of query results) ->
  exists r, In r results /\ candidate_from query r c.
Proof.
  unfold candidate_sentences_of. rewrite consider_results_eq. simpl.
  intros H. apply in_flat_map in H. destruct H as [r [Hr Hc]].
  exists r. split; [exact Hr|].
  unfold candidates_of_result in Hc.
  apply in_map_iff in Hc. destruct Hc as [s [<- Hs]].
  apply filter_In in Hs. destruct Hs as [Hs Hk].
  apply andb_true_iff in Hk. destruct Hk as [H5 H0].
  apply negb_true_iff, Z.ltb_ge in H5. apply Z.ltb_lt in H0.
  unfold candidate_from. simpl. repeat split; assumption.
Qed.

Lemma key_lt_spec (a b : Candidate) :
  key_lt a b = true <->
  cand_score a < cand_score b \/
  (cand_score a = cand_score b /\
   (cand_passage_score a < cand_passage_score b)%Q).
Proof.
  unfold key_lt.
  rewrite orb_true_iff, andb_true_iff, Z.ltb_lt, Z.eqb_eq, Qlt_bool_iff.
  reflexivity.
Qed.

Lemma key_lt_false (a b : Candidate) :
  key_lt a b = false <->
  cand_score b <= cand_score a /\
  (cand_score b = cand_score a ->
   (cand_passage_score b <= cand_passage_score a)%Q).
Proof.
  pose proof (key_lt_spec a b) as H.
  destruct (key_lt a b).
  - split; [discriminate|]. intros [H1 H2].
    destruct (proj1 H eq_refl) as [Hlt | [He Hlt]]; [lia|].
    symmetry in He. specialize (H2 He). lra.
  - split; [|reflexivity]. intros _. split.
    + destruct (Z.le_gt_cases (cand_score b) (cand_score a)); [assumption|].
      assert (false = true) by (apply H; left; lia). discriminate.
    + intros He.
      destruct (Qlt_le_dec (cand_passage_score a) (cand_passage_score b));
        [|assumption].
      assert (false = true) by (apply H; right; split; [lia | assumption]).
      discriminate.
Qed.

Lemma sort_insert_In (x c : Candidate) (l : list Candidate) :
  In c (sort_insert x l) <-> c = x \/ In c l.
Proof.
  induction l as [|y l IH]; simpl; [intuition congruence|].
  destruct (key_lt x y); simpl; [rewrite IH|]; intuition congruence.
Qed.

Lemma sort_reverse_In (c : Candidate) (l : list Candidate) :
  In c (sort_reverse l) <-> In c l.
Proof.
  induction l as [|x l IH]; simpl; [reflexivity|].
  rewrite sort_insert_In, IH. intuition congruence.
Qed.

(** The head of the sorted candidates is a candidate that none exceeds. *)
Lemma sort_reverse_head (d : Candidate) (l : list Candidate) :
  l <> [] ->
  In (hd d (sort_reverse l)) l /\
  Forall (fun c => key_lt (hd d (sort_reverse l)) c = false) l.
Proof.
  induction l as [|x l IH]; intros Hne; [congruence|].
  simpl. destruct l as [|y l].
  - simpl. split; [now left|]. constructor; [|constructor].
    apply key_lt_false. split; [lia | intros _; lra].
  - destruct IH as [Hin Hmax]; [discriminate|].
    set (s := sort_reverse (y :: l)) in *.
    assert (s <> []) as Hs.
    { intros E. assert (In y s) as Hy by (apply sort_reverse_In; now left).
      rewrite E in Hy. destruct Hy. }
    destruct s as [|best s']; [congruence|]. simpl in Hin, Hmax. simpl.
    destruct (key_lt x best) eqn:E; simpl.
    + split; [now right|]. constructor; [|exact Hmax].
      apply key_lt_spec in E. apply key_lt_false.
      destruct E as [E | [E1 E2]]; split; try lia; intros; try lra; lia.
    + split; [now left|]. constructor.
      * apply key_lt_false. split; [lia | intros _; lra].
      * apply key_lt_false in E. destruct E as [E1 E2].
        eapply Forall_impl; [|exact Hmax]. simpl. intros c Hc.
        apply key_lt_false in Hc. destruct Hc as [C1 C2].
        apply key_lt_false. split; [lia|].
        intros He. assert (cand_score best = cand_score x) as Hbx by lia.
        specialize (E2 Hbx). assert (cand_score c = cand_score best) as Hcb by lia.
        specialize (C2 Hcb). lra.
Qed.

Lemma confident_iff (top : Retrieved) :
  Qlt_bool (score top) confidence_floor = false <-> (1 # 100 <= score top)%Q.
Proof.
  unfold confidence_floor.
  pose proof (Qlt_bool_iff (score top) (1 # 100)) as H.
  destruct (Qlt_bool (score top) (1 # 100)).
  - split; [discriminate|]. intros Hle.
    assert (score top < 1 # 100)%Q by now apply H. lra.
  - split; [|reflexivity]. intros _.
    destruct (Qlt_le_dec (score top) (1 # 100)); [|assumption].
    assert (false = true) by now apply H. discriminate.
Qed.

(** [generate_answer] past its guard, with its last two statements read
    as [terminated] of the trimmed sentence. *)
Lemma generate_answer_confident (query : str) (top : Retrieved)
    (rest : list Retrieved) :
  (1 # 100 <= score top)%Q ->
  generate_answer query (top :: rest) =
  match candidate_sentences_of query (top :: rest) with
  | [] =>
      (terminated
         (strip match split_into_sentences (text (passage top)) with
                | s :: _ => s
                | [] => text (passage top)
                end),
       [source (passage top)])
  | first :: others =>
      let best := hd first (sort_reverse (first :: others)) in
      (terminated (strip (cand_sentence best)), [cand_source best])
  end.
Proof.
  intros Hc. apply confident_iff in Hc.
  unfold generate_answer. rewrite Hc.
  unfold candidate_sentences_of, terminated.
  destruct (fold_left _ (top :: rest) []) as [|first others].
  - destruct (ends_with_terminator _); reflexivity.
  - cbv zeta. destruct (ends_with_terminator _); reflexivity.
Qed.

Lemma sentence_finished (text s : str) :
  In s (split_into_sentences text) -> terminated (strip s) = s.
Proof.
  intros H. pose proof (sentences_wellformed text) as Hw.
  rewrite Forall_forall in Hw. destruct (Hw s H) as [_ [He Hs]].
  rewrite Hs. unfold terminated. now rewrite He.
Qed.

Lemma terminated_ends (s : str) : ends_with_terminator (terminated s) = true.
Proof.
  unfold terminated. destruct (ends_with_terminator s) eqn:E; [exact E|].
  apply ends_with_terminator_app.
Qed.

Lemma generate_answer_low (query : str) (top : Retrieved)
    (rest : list Retrieved) :
  (score top < 1 # 100)%Q ->
  generate_answer query (top :: rest) = (no_information, []).
Proof.
  intros H. apply Qlt_bool_iff in H. unfold generate_answer, confidence_floor.
  now rewrite H.
Qed.

Lemma generate_answer_attribution (query : str) (top : Retrieved)
    (rest : list Retrieved) :
  (1 # 100 <= score top)%Q ->
  exists r,
    In r (top :: rest) /\
    snd (generate_answer query (top :: rest)) = [source (passage r)] /\
    (In (fst (generate_answer query (top :: rest)))
        (split_into_sentences (text (passage r))) \/
     (split_into_sentences (text (passage r)) = [] /\
      fst (generate_answer query (top :: rest)) =
        terminated (strip (text (passage r))))).
Proof.
  intros Hc. rewrite (generate_answer_confident query top rest Hc).
  destruct (candidate_sentences_of query (top :: rest)) as [|first others] eqn:E.
  - exists top. split; [now left|]. split; [reflexivity|]. simpl.
    destruct (split_into_sentences (text (passage top))) as [|s l] eqn:Es.
    + right. now split.
    + left. rewrite (sentence_finished (text (passage top)) s);
        [now left | rewrite Es; now left].
  - cbv zeta.
    destruct (sort_reverse_head first (first :: others)) as [Hin _];
      [discriminate|].
    set (best := hd first (sort_reverse (first :: others))) in *.
    rewrite <- E in Hin.
    destruct (candidate_sentences_origin _ _ _ Hin) as [r [Hr Hfrom]].
    destruct Hfrom as [Hs [Hsrc _]].
    exists r. split; [exact Hr|]. simpl. split; [now rewrite Hsrc|].
    left. now rewrite (sentence_finished _ _ Hs).
Qed.

Lemma generate_answer_ends (query : str) (results : list Retrieved) :
  ends_with_terminator (fst (generate_answer query results)) = true /\
  (length (snd (generate_answer query results)) <= 1)%nat.
Proof.
  destruct results as [|top rest]; [split; [reflexivity | simpl; lia]|].
  destruct (Qlt_le_dec (score top) (1 # 100)) as [Hlow | Hc].
  - rewrite (generate_answer_low query top rest Hlow).
    split; [reflexivity | simpl; lia].
  - rewrite (generate_answer_confident query top rest Hc).
    destruct (candidate_sentences_of query (top :: rest)); cbv zeta; simpl;
      (split; [apply terminated_ends | lia]).
Qed.

(** X13: whatever the query and the retrieval results, the answer ends
    with one of [.], [!], [?] and at most one source is returned. *)
Theorem generate_answer_shape (query : str) (results : list Retrieved) :
  ends_with_terminator (fst (generate_answer query results)) = true /\
  (length (snd (generate_answer query results)) <= 1)%nat.
Proof. exact (generate_answer_ends query results). Qed.

(** X14: when the top result reaches the confidence floor, the answer is
    attributed to one retrieved passage, the only source returned, and
    the answer is one of the sentences of that passage (or, when the
    passage has no sentence, its whole text, trimmed and with a full
    stop). *)
Theorem generate_answer_attributed (query : str) (top : Retrieved)
    (rest : list Retrieved) :
  (1 # 100 <= score top)%Q ->
  exists r,
    In r (top :: rest) /\
    snd (generate_answer query (top :: rest)) = [source (passage r)] /\
    (In (fst (generate_answer query (top :: rest)))
        (split_into_sentences (text (passage r))) \/
     (split_into_sentences (text (passage r)) = [] /\
      fst (generate_answer query (top :: rest)) =
        terminated (strip (text (passage r))))).
Proof. exact (generate_answer_attribution query top rest). Qed.

Lemma generate_answer_attributed_witness :
  let top := mkRetrieved warranty_passage 2 in
  let query := lit "How long is the warranty?" in
  (1 # 100 <= score top)%Q /\
  exists r,
    In r [top] /\
    snd (generate_answer query [top]) = [source (passage r)] /\
    (In (fst (generate_answer query [top]))
        (split_into_sentences (text (passage r))) \/
     (split_into_sentences (text (passage r)) = [] /\
      fst (generate_answer query [top]) =
        terminated (strip (text (passage r))))).
Proof.
  intros top query.
  assert (1 # 100 <= score top)%Q as H by (vm_compute; discriminate).
  split; [exact H|].
  apply (generate_answer_attributed query top [] H).
Defined.



(** X16: when the top result reaches the confidence floor but no
    sentence of any retrieved passage has both 5 words and a positive
    relevance score, the answer falls back to the first sentence of the
    top passage, with the top passage as the source. *)
Theorem generate_answer_fallback (query : str) (top : Retrieved)
    (rest : list Retrieved) (s : str) (others : list str) :
  (1 # 100 <= score top)%Q ->
  Forall (fun r =>
            Forall (fun s =>
                      word_count s < 5 \/
                      score_sentence_relevance s (extract_keywords query)
                                               (lower query) <= 0)
                   (split_into_sentences (text (passage r))))
         (top :: rest) ->
  split_into_sentences (text (passage top)) = s :: others ->
  generate_answer query (top :: rest) = (s, [source (passage top)]).
Proof.
  intros Hc Hnone Hs. rewrite (generate_answer_confident query top rest Hc).
  assert (candidate_sentences_of query (top :: rest) = []) as ->.
  { unfold candidate_sentences_of. rewrite consider_results_eq.
    induction Hnone as [|r l Hr _ IH]; [reflexivity|].
    simpl in *. rewrite IH. rewrite app_nil_r.
    unfold candidates_of_result.
    replace (filter _ _) with (@nil str); [reflexivity|].
    symmetry. clear - Hr.
    induction Hr as [|x xs Hx _ IHx]; [reflexivity|].
    simpl. rewrite <- IHx.
    destruct Hx as [Hx | Hx].
    - apply Z.ltb_lt in Hx. now rewrite Hx.
    - apply Z.ltb_ge in Hx. rewrite Hx. now rewrite andb_false_r. }
  rewrite Hs. rewrite (sentence_finished (text (passage top)) s);
    [reflexivity | rewrite Hs; now left].
Qed.

Lemma generate_answer_fallback_witness :
  let top := mkRetrieved returns_passage 1 in
  let query := lit "shipping" in
  ((1 # 100 <= score top)%Q /\
   Forall (fun r =>
             Forall (fun s =>
                       word_count s < 5 \/
                       score_sentence_relevance s (extract_keywords query)
                                                (lower query) <= 0)
                    (split_into_sentences (text (passage r))))
          [top] /\
   split_into_sentences (text (passage top)) =
     [lit "Returns take five days to process."]) /\
  generate_answer query [top] =
    (lit "Returns take five days to process.", [source (passage top)]).
Proof.
  intros top query.
  assert (1 # 100 <= score top)%Q as H1 by (vm_compute; discriminate).
  assert (Forall (fun r =>
             Forall (fun s =>
                       word_count s < 5 \/
                       score_sentence_relevance s (extract_keywords query)
                                                (lower query) <= 0)
                    (split_into_sentences (text (passage r))))
          [top]) as H2.
  { constructor; [|constructor]. vm_compute.
    constructor; [|constructor]. right. discriminate. }
  assert (split_into_sentences (text (passage top)) =
          [lit "Returns take five days to process."]) as H3
    by (vm_compute; reflexivity).
  split; [split; [exact H1 | split; [exact H2 | exact H3]]|].
  apply (generate_answer_fallback query top [] _ [] H1 H2 H3).
Defined.

(** ** Queries end to end *)

(** X17: on a fitted index, when every similarity of the query is below
    the confidence floor, [answer_query] returns the canned sentence and
    no source, whatever [k]. *)
Theorem answer_query_low_confidence `{Sklearn} `{Numpy} (sys sys' : RAGSystem)
    (query : str) (k : Z) :
  passages sys <> [] -> index_passages sys = Ok sys' ->
  Forall (fun s => (s < 1 # 100)%Q) (similarities_of sys' query) ->
  answer_query sys' query k = Ok (no_information, []).
Proof.
  intros Hne Hidx Hlow.
  destruct (retrieve_fitted_results sys sys' query k Hne Hidx)
    as [rs [E [_ [Hrs _]]]].
  unfold answer_query. rewrite E. simpl. f_equal.
  destruct rs as [|top rest]; [reflexivity|].
  apply generate_answer_low.
  inversion Hrs as [|? ? [_ Hs] _]; subst.
  rewrite Forall_forall in Hlow. now apply Hlow.
Qed.

Lemma answer_query_low_confidence_witness :
  (passages demo <> [] /\ index_passages demo = Ok demo_indexed /\
   Forall (fun s => (s < 1 # 100)%Q)
          (similarities_of demo_indexed (lit "shipping"))) /\
  answer_query demo_indexed (lit "shipping") 3 = Ok (no_information, []).
Proof.
  assert (passages demo <> []) as Hne by (vm_compute; discriminate).
  assert (Forall (fun s => (s < 1 # 100)%Q)
                 (similarities_of demo_indexed (lit "shipping"))) as Hlow.
  { vm_compute. repeat constructor. }
  split; [split; [exact Hne | split; [exact demo_index | exact Hlow]]|].
  apply (answer_query_low_confidence demo demo_indexed _ 3 Hne demo_index Hlow).
Defined.

(** X18: on a fitted index [answer_query] never raises, whatever the
    query and [k]: it returns an answer that ends with one of [.], [!],
    [?], with either no source or the source of one indexed passage. *)
Theorem answer_query_fitted `{Sklearn} `{Numpy} (sys sys' : RAGSystem)
    (query : str) (k : Z) :
  passages sys <> [] -> index_passages sys = Ok sys' ->
  exists answer sources,
    answer_query sys' query k = Ok (answer, sources) /\
    ends_with_terminator answer = true /\
    (sources = [] \/
     exists p, In p (passages sys') /\ sources = [source p]).
Proof.
  intros Hne Hidx.
  destruct (retrieve_fitted_results sys sys' query k Hne Hidx)
    as [rs [E [_ [Hrs _]]]].
  unfold answer_query. rewrite E. simpl.
  exists (fst (generate_answer query rs)), (snd (generate_answer query rs)).
  split; [now rewrite <- surjective_pairing|].
  split; [apply generate_answer_ends|].
  destruct rs as [|top rest]; [now left|].
  destruct (Qlt_le_dec (score top) (1 # 100)) as [Hlow | Hc].
  - left. now rewrite (generate_answer_low query top rest Hlow).
  - right.
    destruct (generate_answer_attribution query top rest Hc)
      as [r [Hr [Hsrc _]]].
    exists (passage r). split; [|exact Hsrc].
    rewrite Forall_forall in Hrs. now apply Hrs.
Qed.

Lemma answer_query_fitted_witness :
  (passages demo <> [] /\ index_passages demo = Ok demo_indexed) /\
  exists answer sources,
    answer_query demo_indexed (lit "Is there a warranty?") 0
    = Ok (answer, sources) /\
    ends_with_terminator answer = true /\
    (sources = [] \/
     exists p, In p (passages demo_indexed) /\ sources = [source p]).
Proof.
  assert (passages demo <> []) as Hne by (vm_compute; discriminate).
  split; [split; [exact Hne | exact demo_index]|].
  apply (answer_query_fitted demo demo_indexed _ 0 Hne demo_index).
Defined.

Lemma preprocess_text_lower (query : str) :
  preprocess_text (lower query) = preprocess_text query.
Proof. unfold preprocess_text. now rewrite lower_idem. Qed.

Lemma extract_keywords_lower (query : str) :
  extract_keywords (lower query) = extract_keywords query.
Proof. unfold extract_keywords. now rewrite lower_idem. Qed.

Lemma generate_answer_lower (query : str) (results : list Retrieved) :
  generate_answer (lower query) results = generate_answer query results.
Proof.
  unfold generate_answer. now rewrite extract_keywords_lower, lower_idem.
Qed.

(** X19: the letter case of the query does not matter: a query and its
    lowercased form get the same retrieval results and the same answer,
    or raise the same exception. *)
Theorem answer_query_case_insensitive `{Sklearn} `{Numpy} (sys : RAGSystem)
    (query : str) (k : Z) :
  retrieve sys (lower query) k = retrieve sys query k /\
  answer_query sys (lower query) k = answer_query sys query k.
Proof.
  assert (retrieve sys (lower query) k = retrieve sys query k) as E.
  { unfold retrieve. now rewrite preprocess_text_lower. }
  split; [exact E|].
  unfold answer_query. rewrite E.
  destruct (retrieve sys query k); simpl; [|reflexivity].
  now rewrite generate_answer_lower.
Qed.

Lemma in_punctuation_lower_char (c : ascii) :
  in_punctuation (lower_char c) = in_punctuation c.
Proof. each_char c; reflexivity. Qed.

Lemma split_nil_spaces (s : str) :
  split s = [] -> Forall (fun c => isspace c = true) s.
Proof.
  induction s as [|c s IH]; [constructor|].
  destruct (isspace c) eqn:E.
  - rewrite split_cons_space by exact E. intros H. constructor; auto.
  - intros H. exfalso. exact (split_first_word c s E H).
Qed.

(** X20: the normalized text is empty exactly when the text holds
    nothing but punctuation and whitespace (the empty query is one). *)
Theorem preprocess_text_empty (x : str) :
  preprocess_text x = [] <->
  Forall (fun c => in_punctuation c = true \/ isspace c = true) x.
Proof.
  unfold preprocess_text. split.
  - intros E.
    assert (split (delete_chars in_punctuation (lower x)) = []) as Hs.
    { destruct (split _) as [|w ws] eqn:Ew; [reflexivity|]. exfalso.
      revert E. apply join_nonempty; [discriminate|].
      pose proof (split_words (delete_chars in_punctuation (lower x))) as Hw.
      rewrite Ew in Hw. eapply Forall_impl; [|exact Hw].
      intros a [Ha _]. exact Ha. }
    apply split_nil_spaces in Hs. rewrite Forall_forall in *.
    intros c Hc. destruct (in_punctuation c) eqn:Ep; [now left | right].
    rewrite <- isspace_lower_char. apply Hs.
    unfold delete_chars. apply filter_In. split.
    + unfold lower. now apply in_map.
    + now rewrite in_punctuation_lower_char, Ep.
  - intros H.
    rewrite split_spaces; [reflexivity|].
    apply Forall_forall. intros c Hc.
    unfold delete_chars in Hc. apply filter_In in Hc.
    destruct Hc as [Hc Hp]. unfold lower in Hc.
    apply in_map_iff in Hc. destruct Hc as [c' [<- Hc']].
    rewrite Forall_forall in H. rewrite isspace_lower_char.
    rewrite in_punctuation_lower_char in Hp.
    destruct (H c' Hc') as [Hp' | Hs]; [|exact Hs].
    rewrite Hp' in Hp. discriminate.
Qed.

Lemma collect_results_app (all_passages extra : list Passage)
    (similarities : list Q) (idxs : list nat) (acc : list Retrieved) :
  (forall i, In i idxs -> (i < length all_passages)%nat) ->
  collect_results (all_passages ++ extra) similarities idxs acc =
  collect_results all_passages similarities idxs acc.
Proof.
  revert acc. induction idxs as [|i idxs IH]; intros acc Hin; [reflexivity|].
  simpl. rewrite nth_error_app1 by (apply Hin; now left).
  destruct (nth_error all_passages i); [|reflexivity].
  apply IH. intros j Hj. apply Hin. now right.
Qed.

(** X21: documents ingested after the index was built are not seen by
    [retrieve] until [index_passages] is run again: the results are
    those of the system as it was indexed. *)
Theorem retrieve_after_late_ingestion `{Sklearn} `{Numpy}
    (sys sys' : RAGSystem)
    (files : list (str * str)) (query : str) (k : Z) :
  passages sys <> [] -> index_passages sys = Ok sys' ->
  retrieve (ingest_documents files sys') query k = retrieve sys' query k.
Proof.
  intros Hne Hidx.
  destruct (index_passages_fitted sys sys' Hne Hidx) as [v [vs [Hv [Hvs [Hp Hlen]]]]].
  destruct (ingest_documents_fields files sys') as [_ [_ [Hps [Hv' Hvs']]]].
  unfold retrieve. rewrite Hv', Hvs', Hps, Hv, Hvs.
  apply collect_results_app.
  intros i Hi. apply top_k_indices_any in Hi.
  unfold cosine_similarities in Hi. rewrite length_map in Hi. congruence.
Qed.

Lemma retrieve_after_late_ingestion_witness :
  (passages demo <> [] /\ index_passages demo = Ok demo_indexed) /\
  retrieve (ingest_documents [(lit "care.txt", lit "Wash by hand.")]
                             demo_indexed)
           (lit "How do I wash it?") 3
  = retrieve demo_indexed (lit "How do I wash it?") 3.
Proof.
  assert (passages demo <> []) as Hne by (vm_compute; discriminate).
  split; [split; [exact Hne | exact demo_index]|].
  apply (retrieve_after_late_ingestion demo demo_indexed _ _ 3 Hne demo_index).
Defined.

(** ** Splitting passages again *)

Lemma space_not_terminator (c : ascii) :
  isspace c = true -> is_terminator c = false.
Proof.
  intros H. destruct (is_terminator c) eqn:E; [|reflexivity].
  apply terminator_not_space in E. congruence.
Qed.

Lemma end_state_snoc (t : bool) (a : str) (c : ascii) :
  end_state t (a ++ [c]) = is_terminator c.
Proof.
  revert t. induction a as [|x a IH]; intros t; simpl.
  - destruct (isspace c) eqn:E; [|reflexivity].
    now rewrite space_not_terminator.
  - destruct (isspace x); apply IH.
Qed.

Lemma no_separator_app (t : bool) (a b : str) :
  no_separator t (a ++ b) =
  no_separator t a && no_separator (end_state t a) b.
Proof.
  revert t. induction a as [|x a IH]; intros t; simpl; [reflexivity|].
  destruct (isspace x); [|apply IH].
  rewrite IH. now rewrite andb_assoc.
Qed.

Lemma end_state_last (t : bool) (s : str) :
  ends_with_terminator s = true -> end_state t s = true.
Proof.
  unfold ends_with_terminator, last_char. intros H.
  destruct (rev s) as [|c r] eqn:E; [discriminate|].
  apply (f_equal (@rev ascii)) in E. rewrite rev_involutive in E.
  simpl in E. subst s. now rewrite end_state_snoc.
Qed.

Lemma re_split_scan_app (t : bool) (cur a b : str) :
  no_separator t a = true ->
  re_split_scan (InText t) cur (a ++ b) =
  re_split_scan (InText (end_state t a)) (rev a ++ cur) b.
Proof.
  revert t cur. induction a as [|x a IH]; intros t cur H; [reflexivity|].
  simpl in *. destruct (isspace x).
  - apply andb_true_iff in H. destruct H as [Ht H].
    apply negb_true_iff in Ht. subst t.
    rewrite IH by exact H. now rewrite <- app_assoc.
  - rewrite IH by exact H. now rewrite <- app_assoc.
Qed.

Lemma re_split_scan_fragments (st : scan) (cur s : str) :
  scan_ok st cur ->
  Forall (fun f => no_separator false f = true) (re_split_scan st cur s).
Proof.
  revert st cur. induction s as [|c s IH]; intros st cur Hok; simpl.
  - constructor; [|constructor].
    destruct st; simpl in Hok; [apply Hok | now subst].
  - destruct (isspace c) eqn:Ec.
    + destruct st as [[|]|]; simpl in Hok.
      * constructor; [apply Hok | now apply IH].
      * apply IH. simpl. destruct Hok as [Hn He].
        rewrite no_separator_app, end_state_snoc, Hn, He. simpl.
        rewrite Ec. split; [reflexivity | now apply space_not_terminator].
      * now apply IH.
    + apply IH. simpl. rewrite end_state_snoc. split; [|reflexivity].
      rewrite no_separator_app. simpl. rewrite Ec.
      destruct st as [t|]; simpl in Hok.
      * destruct Hok as [Hn _]. now rewrite Hn.
      * now subst.
Qed.

Lemma no_separator_lstrip (s : str) :
  no_separator false s = true -> no_separator false (lstrip isspace s) = true.
Proof.
  induction s as [|c s IH]; simpl; [reflexivity|].
  destruct (isspace c) eqn:E; simpl; [exact IH|].
  now rewrite E.
Qed.

Lemma no_separator_strip (s : str) :
  no_separator false s = true -> no_separator false (strip s) = true.
Proof.
  intros H. apply no_separator_lstrip in H.
  unfold strip, strip_chars, rstrip.
  destruct (lstrip_prefix isspace (rev (lstrip isspace s))) as [post [E _]].
  apply (f_equal (@rev ascii)) in E.
  rewrite rev_involutive, rev_app_distr in E.
  rewrite E, no_separator_app in H.
  apply andb_true_iff in H. apply H.
Qed.

Lemma no_separator_terminated (s : str) :
  no_separator false s = true -> no_separator false (terminated s) = true.
Proof.
  intros H. unfold terminated. destruct (ends_with_terminator s); [exact H|].
  rewrite no_separator_app, H. reflexivity.
Qed.

Lemma sentences_ok (text : str) :
  Forall sentence_ok (split_into_sentences text).
Proof.
  pose proof (sentences_wellformed text) as Hw.
  apply Forall_forall. intros s Hs.
  rewrite Forall_forall in Hw. destruct (Hw s Hs) as [H1 [H2 H3]].
  repeat split; try assumption.
  unfold split_into_sentences in Hs. rewrite clean_sentences_from in Hs.
  simpl in Hs. apply in_map_iff in Hs. destruct Hs as [t [<- Ht]].
  apply filter_In in Ht. destruct Ht as [Ht _].
  apply in_map_iff in Ht. destruct Ht as [f [<- Hf]].
  apply no_separator_terminated, no_separator_strip.
  pose proof (re_split_scan_fragments (InText false) [] text) as Hfr.
  rewrite Forall_forall in Hfr. apply Hfr; [|exact Hf].
  simpl. now split.
Qed.

Lemma re_split_single (s : str) :
  no_separator false s = true -> re_split_sentences s = [s].
Proof.
  intros H. unfold re_split_sentences.
  rewrite <- (app_nil_r s) at 1. rewrite re_split_scan_app by exact H.
  simpl. now rewrite app_nil_r, rev_involutive.
Qed.

Lemma re_split_join_cons (s rest : str) (d : ascii) :
  sentence_ok s -> isspace d = false ->
  re_split_sentences (s ++ space ++ d :: rest) =
  s :: re_split_sentences (d :: rest).
Proof.
  intros [_ [He [_ Hn]]] Hd. unfold re_split_sentences.
  rewrite re_split_scan_app by exact Hn.
  rewrite (end_state_last false s He).
  simpl. rewrite Hd. now rewrite app_nil_r, rev_involutive.
Qed.

Lemma sentence_ok_head (s : str) :
  sentence_ok s -> exists d s', s = d :: s' /\ isspace d = false.
Proof.
  intros [Hne [_ [Hs _]]].
  pose proof (strip_chars_trimmed isspace s) as [Hh _].
  fold (strip s) in Hh. rewrite Hs in Hh.
  destruct s as [|d s']; [congruence|]. eauto.
Qed.

Lemma re_split_join (l : list str) :
  l <> [] -> Forall sentence_ok l -> re_split_sentences (join space l) = l.
Proof.
  intros Hne H. induction H as [|s l Hs Hl IH]; [congruence|].
  destruct l as [|y l].
  - simpl. apply re_split_single. apply Hs.
  - rewrite join_cons by discriminate.
    assert (exists d r, join space (y :: l) = d :: r /\ isspace d = false)
      as [d [r [E Hd]]].
    { inversion Hl as [|? ? Hy _]; subst.
      destruct (sentence_ok_head y Hy) as [d [y' [-> Hd]]].
      destruct l; simpl; eauto. }
    rewrite E, (re_split_join_cons s r d Hs Hd), <- E.
    now rewrite IH by discriminate.
Qed.

Lemma clean_ok (l : list str) :
  Forall sentence_ok l -> map terminated (filter kept (map strip l)) = l.
Proof.
  induction 1 as [|s l [Hne [He [Hs _]]] _ IH]; [reflexivity|].
  cbn [map filter]. rewrite Hs.
  assert (kept s = true) as ->.
  { unfold kept. rewrite He.
    destruct (str_eqb s []) eqn:E; [|reflexivity].
    apply str_eqb_eq in E. congruence. }
  cbn [map]. rewrite IH. unfold terminated. now rewrite He.
Qed.

Lemma resplit_join (l : list str) :
  Forall sentence_ok l -> split_into_sentences (join space l) = l.
Proof.
  intros H. destruct l as [|s l]; [reflexivity|].
  unfold split_into_sentences.
  rewrite re_split_join by (discriminate || exact H).
  rewrite clean_sentences_from, app_nil_l. now apply clean_ok.
Qed.

(** X22: joining the sentences of a text by single spaces and splitting
    again gives the same sentences. *)
Theorem split_into_sentences_join (text : str) :
  split_into_sentences (join space (split_into_sentences text)) =
  split_into_sentences text.
Proof. apply resplit_join, sentences_ok. Qed.

Lemma resplit_segment (m : Z) (l : list str) (st : segmenter) :
  Forall sentence_ok l -> Forall sentence_ok (current_passage st) ->
  flat_map split_into_sentences (flush (fold_left (add_sentence m) l st)) =
  flat_map split_into_sentences (seg_passages st) ++ current_passage st ++ l.
Proof.
  intros Hl. revert st.
  induction Hl as [|s l Hs _ IH]; intros st Hc; cbn [fold_left].
  - rewrite app_nil_r. unfold flush.
    destruct (current_passage st) as [|c cur] eqn:E; cbn [truthy].
    + now rewrite app_nil_r.
    + rewrite flat_map_app. cbn [flat_map].
      now rewrite app_nil_r, (resplit_join (c :: cur) Hc).
  - rewrite IH.
    + unfold add_sentence.
      destruct ((m <? current_word_count st + word_count s)
                && truthy (current_passage st));
        cbn [seg_passages current_passage].
      * rewrite flat_map_app. cbn [flat_map].
        rewrite app_nil_r, (resplit_join _ Hc), <- !app_assoc. reflexivity.
      * now rewrite <- app_assoc.
    + unfold add_sentence.
      destruct ((m <? current_word_count st + word_count s)
                && truthy (current_passage st)); simpl.
      * now constructor.
      * apply Forall_app. split; [exact Hc | now constructor].
Qed.

(** X23: splitting the passages of a text into sentences again, as
    answer generation does, gives back the sentences of the text, all of
    them and in order. *)
Theorem create_passages_resplit (max_words : Z) (text filename : str) :
  flat_map split_into_sentences (create_passages max_words text filename) =
  split_into_sentences text.
Proof.
  unfold create_passages, segment.
  rewrite resplit_segment; [reflexivity | apply sentences_ok | constructor].
Qed.

(** X24: a system whose documents were ingested but never indexed
    refuses every query: [retrieve] and [answer_query] raise
    [NotFittedError], whatever the files, the query and [k]. *)
Theorem query_before_index `{Sklearn} `{Numpy} (m : Z)
    (files : list (str * str))
    (query : str) (k : Z) :
  retrieve (ingest_documents files (new_system m)) query k
  = Raise NotFittedError /\
  answer_query (ingest_documents files (new_system m)) query k
  = Raise NotFittedError.
Proof.
  destruct (ingest_documents_fields files (new_system m)) as [_ [_ [_ [Hv _]]]].
  assert (retrieve (ingest_documents files (new_system m)) query k
          = Raise NotFittedError) as E.
  { unfold retrieve. now rewrite Hv. }
  split; [exact E|]. unfold answer_query. now rewrite E.
Qed.
